(** * StoneMod: the multivalent ligand-receptor binding model of Week3-Fitting.ipynb

    [StoneMod] finds the free-receptor concentration [Req] as the root of a
    mass-balance function and then evaluates a binomial series.

    The program is embedded twice.

    Over exact real arithmetic (the definitions at the top level), where the
    algebra of the model is proved:
    - floating-point numbers are real numbers (Stdlib [R]);
    - [np.int_] is truncation toward zero, from [R] to [Z];
    - NumPy arrays are lists; [np.arange], [np.power], [np.multiply],
      [np.sum] and slicing are list functions;
    - [scipy.special.binom] is the binomial coefficient (Pascal's rule);
    - [scipy.optimize.brentq] is idealised: sign check, endpoint roots,
      otherwise an exact root inside the bracket;
    - exceptions are an explicit result type; the calls to the root-finder
      are recorded in a trace, so that "before root-finding" can be stated.
    Statements proved here are meant for properties that do not depend on
    the root being exact or on the range of the floats.

    In IEEE binary64 (module [B64]), where the program is run: builtin float
    operations round and saturate silently, NumPy operations raise
    [FloatingPointError] on overflow ([np.seterr(over='raise')]), [np.int_]
    raises outside the 64-bit range, and [brentq] is the iteration of SciPy
    with its default stopping tolerances.  The runs of this module decide
    what holds of the program where rounding, overflow or the stopping
    tolerance matter.

    [np.float] is the alias of the builtin [float] it was in the NumPy
    release the notebook was written for. *)

From Stdlib Require Import Reals Lra Lia List ZArith Epsilon.
From Stdlib Require Floats.
Import ListNotations.

Open Scope R_scope.

(** ** Exceptions and the trace of root-finder calls *)

Inductive exn : Type :=
| ZeroDivisionError   (* float division by zero: [1/Kd] with [Kd = 0] *)
| RuntimeError        (* "There is no solution with these parameters..." *)
| ValueError.         (* brentq: "f(a) and f(b) must have different signs" *)

Inductive result (A : Type) : Type :=
| OK (a : A)
| Raise (e : exn).
Arguments OK {A} a.
Arguments Raise {A} e.

(** One event per call of the root-finder, with its bracket. *)
Inductive event : Type :=
| CallBrentq (a b : R).

(** A computation yields the calls it made and its result. *)
Definition M (A : Type) : Type := (list event * result A)%type.

Definition ret {A} (a : A) : M A := ([], OK a).
Definition raise {A} (e : exn) : M A := ([], Raise e).
Definition bind {A B} (m : M A) (k : A -> M B) : M B :=
  match m with
  | (tr, OK a) => let (tr', r) := k a in (tr ++ tr', r)
  | (tr, Raise e) => (tr, Raise e)
  end.

Notation "x <- m ;; k" := (bind m (fun x => k))
  (at level 61, m at next level, right associativity).

Definition calls {A} (m : M A) : list event := fst m.
Definition outcome {A} (m : M A) : result A := snd m.

(** ** NumPy and SciPy primitives *)

(** [np.int_(v)]: conversion of a float to an integer truncates toward 0. *)
Definition np_int (r : R) : Z :=
  if Rle_dec 0 r then Int_part r else (- Int_part (- r))%Z.

(** [np.arange(start, stop)] on integers: [start, start+1, ..., stop-1],
    empty when [stop <= start]. *)
Definition arange (start stop : Z) : list Z :=
  map (fun k => (start + Z.of_nat k)%Z) (seq 0 (Z.to_nat (stop - start))).

(** The binomial coefficient "n choose k", by Pascal's rule. *)
Fixpoint choose (n k : nat) : nat :=
  match k, n with
  | O, _ => 1
  | S _, O => 0
  | S k', S n' => choose n' k' + choose n' k
  end.

(** [scipy.special.binom(n, ks)] with an integer [n] and an integer array. *)
Definition binom (n : Z) (ks : list Z) : list R :=
  map (fun k => INR (choose (Z.to_nat n) (Z.to_nat k))) ks.

(** [np.power(base, exps)] with a float base and an integer array. *)
Definition np_power (base : R) (exps : list Z) : list R :=
  map (fun e => powerRZ base e) exps.

(** Elementwise product of two arrays of the same length. *)
Fixpoint np_multiply (xs ys : list R) : list R :=
  match xs, ys with
  | x :: xs', y :: ys' => x * y :: np_multiply xs' ys'
  | _, _ => []
  end.

(** [scalar * array]. *)
Definition np_scale (c : R) (xs : list R) : list R := map (fun x => c * x) xs.

(** [np.sum]. *)
Definition np_sum (xs : list R) : R := fold_right Rplus 0 xs.

(** [np.arange(start, stop, dtype=np.float)]. *)
Definition arange_float (start stop : Z) : list R := map IZR (arange start stop).

(** [x] is a root of [f] in the bracket with ends [a] and [b]. *)
Definition root_in (f : R -> R) (a b : R) (x : R) : Prop :=
  Rmin a b <= x <= Rmax a b /\ f x = 0.

(** The value [scipy.optimize.brentq] converges to, over exact arithmetic
    and with its stopping tolerances taken as 0: an end of the bracket where
    [f] vanishes, otherwise a root of [f] inside the bracket. *)
Definition brentq_root (f : R -> R) (a b : R) : R :=
  if Req_dec_T (f a) 0 then a
  else if Req_dec_T (f b) 0 then b
  else epsilon (inhabits 0) (root_in f a b).

(** [scipy.optimize.brentq(f, a, b, disp=False)]: [ValueError] when [f(a)]
    and [f(b)] have the same sign, the root otherwise. *)
Definition brentq (f : R -> R) (a b : R) : M R :=
  ([CallBrentq a b],
   if Rlt_dec 0 (f a * f b) then Raise ValueError
   else OK (brentq_root f a b)).

(** ** StoneMod *)

(** [diffFunAnon = lambda x: Rtot-x*(1+v*L0*(1/Kd)*(1+Kx*x)**(v-1))],
    with [v] already an integer. *)
Definition diffFunAnon (Rtot Kd : R) (v : Z) (Kx L0 : R) (x : R) : R :=
  Rtot - x * (1 + IZR v * L0 * (1 / Kd) * powerRZ (1 + Kx * x) (v - 1)).

(** [vieq = L0*(1/Kd)*Req*(binom(v, np.arange(1, v + 1)))
           * np.power(Kx*Req, np.arange(v))]. *)
Definition vieq (Kd : R) (v : Z) (Kx L0 Req : R) : list R :=
  np_multiply (np_scale (L0 * (1 / Kd) * Req) (binom v (arange 1 (v + 1))))
              (np_power (Kx * Req) (arange 0 v)).

Definition StoneMod (Rtot Kd v Kx L0 : R) : M (R * R * R) :=
  let v := np_int v in
  (* every evaluation of diffFunAnon divides by Kd; the first one is
     diffFunAnon(0) in the solution check *)
  if Req_dec_T Kd 0 then raise ZeroDivisionError else
  let diffFunAnon := diffFunAnon Rtot Kd v Kx L0 in
  if Rlt_dec 0 (diffFunAnon 0 * diffFunAnon Rtot) then raise RuntimeError else
  Req <- brentq diffFunAnon 0 Rtot ;;
  let vieq := vieq Kd v Kx L0 Req in
  let Lbound := np_sum vieq in
  let Rmulti := np_sum (np_multiply (skipn 1 vieq) (arange_float 2 (v + 1))) in
  let Rbnd := np_sum (np_multiply vieq (arange_float 1 (v + 1))) in
  ret (Lbound, Rbnd, Rmulti).

(** ** The specification's formulas *)

(** Sum of [F lo + F (lo+1) + ...], [len] terms. *)
Fixpoint sigma (lo len : nat) (F : nat -> R) : R :=
  match len with
  | O => 0
  | S len' => F lo + sigma (S lo) len' F
  end.

(** [vieq[i] = L0 (1/Kd) Req C(v,i) (Kx Req)^(i-1)], with the factorial
    binomial coefficient [C]. *)
Definition vieq_spec (Kd : R) (v : nat) (Kx L0 Req : R) (i : nat) : R :=
  L0 * (1 / Kd) * Req * C v i * (Kx * Req) ^ (i - 1).

Definition Lbound_spec Kd v Kx L0 Req : R :=
  sigma 1 v (fun i => vieq_spec Kd v Kx L0 Req i).
Definition Rbnd_spec Kd v Kx L0 Req : R :=
  sigma 1 v (fun i => INR i * vieq_spec Kd v Kx L0 Req i).
Definition Rmulti_spec Kd v Kx L0 Req : R :=
  sigma 2 (v - 1) (fun i => INR i * vieq_spec Kd v Kx L0 Req i).

(** The data-model domain of the inputs. *)
Definition valid (Rtot Kd v Kx L0 : R) : Prop :=
  0 < Rtot /\ 0 < Kd /\ (exists n : Z, (0 < n)%Z /\ v = IZR n) /\
  0 <= Kx /\ 0 <= L0.

(** ** Auxiliary definitions for the proofs *)

(** [sumn F n] is [F 0 + ... + F (n-1)], as [np.sum] computes it on the
    array [F 0, ..., F (n-1)]. *)
Definition sumn (F : nat -> R) (n : nat) : R := np_sum (map F (seq 0 n)).

(** The mass-balance function with a valency [v >= 1] is a polynomial. *)
Definition massBalance (Rtot c Kx : R) (n : nat) (x : R) : R :=
  Rtot - x * (1 + c * (1 + Kx * x) ^ n).

(** The value [brentq] returns inside [StoneMod]. *)
Definition Req_of (Rtot Kd v Kx L0 : R) : R :=
  brentq_root (diffFunAnon Rtot Kd (np_int v) Kx L0) 0 Rtot.

(** The three outputs as functions of [Req] (the body of [StoneMod] after
    the root-finding step). *)
Definition Lbound_of (Kd : R) (v : Z) (Kx L0 Req : R) : R :=
  np_sum (vieq Kd v Kx L0 Req).
Definition Rbnd_of (Kd : R) (v : Z) (Kx L0 Req : R) : R :=
  np_sum (np_multiply (vieq Kd v Kx L0 Req) (arange_float 1 (v + 1))).
Definition Rmulti_of (Kd : R) (v : Z) (Kx L0 Req : R) : R :=
  np_sum (np_multiply (skipn 1 (vieq Kd v Kx L0 Req))
                      (arange_float 2 (v + 1))).

(** The series term with index [k = i - 1], as the arrays hold it. *)
Definition term (Kd : R) (n : nat) (Kx L0 Req : R) (k : nat) : R :=
  L0 * (1 / Kd) * Req * INR (choose n (S k)) * (Kx * Req) ^ k.


(** The builtin float operations of StoneMod, [1/Kd] and [Kx*x] for [x] in
    [0, Rtot], stay within the range of binary64. *)
Definition builtin_in_range (Rtot Kd Kx : R) : Prop :=
  / 2 ^ 1022 <= Kd /\ Kx * Rtot <= 2 ^ 1023.

(** An exception raised with no call of the root-finder. *)
Definition fails_before_root_finding {A} (m : M A) : Prop :=
  (exists e, outcome m = Raise e) /\ calls m = [].

(** Closes [(tr, OK (a, b, c)) = (tr, OK (x, y, z))] by linear arithmetic on
    each component. *)
Ltac now_triple x y z :=
  match goal with
  | |- (_, OK (?a, ?b, ?c)) = _ =>
      replace a with x by lra; replace b with y by lra;
      replace c with z by lra; reflexivity
  end.

(** ** The data table

    [data = np.loadtxt("wk3-stone.csv", delimiter=",")] is an array of at
    most two dimensions; the file is not read here, [data] is an input.  A
    two-dimensional array carries its number of columns, so that a table
    without rows still has a shape. *)
Inductive ndarray : Type :=
| Arr0 (x : R)
| Arr1 (xs : list R)
| Arr2 (ncols : nat) (rows : list (list R)).

(** Every row of a two-dimensional array has [ncols] entries. *)
Definition wf_ndarray (a : ndarray) : Prop :=
  match a with
  | Arr2 ncols rows => Forall (fun r => length r = ncols) rows
  | _ => True
  end.

(** [count] consecutive pieces of [size] entries. *)
Fixpoint chunks (size count : nat) (xs : list R) : list (list R) :=
  match count with
  | O => []
  | S c => firstn size xs :: chunks size c (skipn size xs)
  end.

(** The same along the columns of a table. *)
Fixpoint col_chunks (size count : nat) (rows : list (list R))
  : list (list (list R)) :=
  match count with
  | O => []
  | S c => map (firstn size) rows :: col_chunks size c (map (skipn size) rows)
  end.

(** [np.hsplit(ary, sections)] with an integer [sections > 0]: a
    one-dimensional array is split along its only axis, a two-dimensional
    one along its columns; a zero-dimensional array and a length that
    [sections] does not divide are a [ValueError]. *)
Definition hsplit (ary : ndarray) (sections : nat) : result (list ndarray) :=
  match ary with
  | Arr0 _ => Raise ValueError
  | Arr1 xs =>
      if (length xs mod sections =? 0)%nat
      then OK (map Arr1 (chunks (length xs / sections) sections xs))
      else Raise ValueError
  | Arr2 ncols rows =>
      if (ncols mod sections =? 0)%nat
      then OK (map (Arr2 (ncols / sections))
                   (col_chunks (ncols / sections) sections rows))
      else Raise ValueError
  end.

(** [np.squeeze(a)]: every axis of length 1 is removed. *)
Definition squeeze (a : ndarray) : ndarray :=
  match a with
  | Arr0 x => Arr0 x
  | Arr1 xs =>
      match xs with
      | [x] => Arr0 x
      | _ => Arr1 xs
      end
  | Arr2 ncols rows =>
      match length rows, ncols with
      | 1%nat, 1%nat => Arr0 (hd 0 (hd [] rows))
      | _, 1%nat => Arr1 (map (hd 0) rows)
      | 1%nat, _ => Arr1 (hd [] rows)
      | _, _ => Arr2 ncols rows
      end
  end.

(** The statements after [np.loadtxt]:
    [Xs, Ys, Vs = np.hsplit(data, 3)], then [np.squeeze] of each. *)
Definition split_columns (data : ndarray)
  : result (ndarray * ndarray * ndarray) :=
  match hsplit data 3 with
  | Raise e => Raise e
  | OK [Xs; Ys; Vs] => OK (squeeze Xs, squeeze Ys, squeeze Vs)
  | OK _ => Raise ValueError   (* unpacking into three names *)
  end.

(** The table whose rows are [(Xs[i], Ys[i], Vs[i])]. *)
Fixpoint zip3 (xs ys vs : list R) : list (list R) :=
  match xs, ys, vs with
  | x :: xs', y :: ys', v :: vs' => [x; y; v] :: zip3 xs' ys' vs'
  | _, _, _ => []
  end.

(** ** The program in IEEE binary64

    The arguments of [StoneMod] are builtin Python floats.  After
    [v = np.int_(v)] the valency is a NumPy integer, so every operation
    with [v] or with a result of such an operation is a NumPy operation and
    raises [FloatingPointError] when it overflows; [Kx*x], [1+Kx*x],
    [1/Kd], [L0*(1/Kd)*Req] and [Kx*Req] are builtin operations, which
    do not. *)
Module B64.
Import PrimFloat SpecFloat FloatOps.
#[local] Set Warnings "-inexact-float".
Local Open Scope bool_scope.
Local Open Scope float_scope.

Inductive error : Type :=
| ZeroDivisionError    (* builtin [1/Kd] with [Kd == 0] *)
| RuntimeError         (* "There is no solution with these parameters..." *)
| ValueError           (* brentq's sign test; [np.int_] of a NaN *)
| FloatingPointError   (* NumPy overflow under [np.seterr(over='raise')] *)
| OverflowError.       (* [np.int_] outside the 64-bit integers *)

Inductive res (A : Type) : Type :=
| Ok (a : A)
| Err (e : error).
Arguments Ok {A} a.
Arguments Err {A} e.

Definition bind {A B} (m : res A) (k : A -> res B) : res B :=
  match m with
  | Ok a => k a
  | Err e => Err e
  end.

Notation "x <~ m ;; k" := (bind m (fun x => k))
  (at level 61, m at next level, right associativity).

(** The overflow flag of an operation: an infinite result from finite
    operands. *)
Definition overflowed (r a b : float) : bool :=
  is_infinity r && is_finite a && is_finite b.

(** NumPy [*], [+], [-] under [np.seterr(over='raise')]. *)
Definition np_mul (a b : float) : res float :=
  let r := a * b in
  if overflowed r a b then Err FloatingPointError else Ok r.
Definition np_add (a b : float) : res float :=
  let r := a + b in
  if overflowed r a b then Err FloatingPointError else Ok r.
Definition np_sub (a b : float) : res float :=
  let r := a - b in
  if overflowed r a b then Err FloatingPointError else Ok r.

(** Builtin float division: an error for a zero divisor only. *)
Definition py_div (a b : float) : res float :=
  if b =? 0 then Err ZeroDivisionError else Ok (a / b).

(** A 64-bit integer as a float. *)
Definition float_of_Z (z : Z) : float :=
  match z with
  | Z0 => 0
  | Zpos p => SF2Prim (S754_finite false p 0)
  | Zneg p => SF2Prim (S754_finite true p 0)
  end.

(** [np.int_(v)]: truncation toward zero into the 64-bit integers. *)
Definition np_int (v : float) : res Z :=
  match Prim2SF v with
  | S754_nan => Err ValueError
  | S754_infinity _ => Err OverflowError
  | S754_zero _ => Ok 0%Z
  | S754_finite s m e =>
      let z := (if 0 <=? e then Zpos m * 2 ^ e else Zpos m / 2 ^ (- e))%Z in
      if (z <? 2 ^ 63)%Z then Ok (if s then - z else z)%Z
      else Err OverflowError
  end.

Fixpoint pow_nat (x : float) (n : nat) : float :=
  match n with
  | O => 1
  | S n' => x * pow_nat x n'
  end.

(** NumPy [x ** n] with a float [x] and an integer [n], by repeated
    multiplication: the value of the C library's [pow] where that is exact
    or overflows, within rounding of it otherwise. *)
Definition np_pow (x : float) (n : Z) : res float :=
  let r := if (0 <=? n)%Z then pow_nat x (Z.to_nat n)
           else 1 / pow_nat x (Z.to_nat (- n)) in
  if is_infinity r && is_finite x && negb (x =? 0)
  then Err FloatingPointError else Ok r.

(** [diffFunAnon = lambda x: Rtot-x*(1+v*L0*(1/Kd)*(1+Kx*x)**(v-1))],
    operand by operand in Python's order of evaluation. *)
Definition diffFunAnon (Rtot Kd : float) (v : Z) (Kx L0 : float) (x : float)
  : res float :=
  vL0 <~ np_mul (float_of_Z v) L0 ;;
  iKd <~ py_div 1 Kd ;;
  a <~ np_mul vL0 iKd ;;
  P <~ np_pow (1 + Kx * x) (v - 1) ;;
  b <~ np_mul a P ;;
  c <~ np_add 1 b ;;
  d <~ np_mul x c ;;
  np_sub Rtot d.

(** The defaults of [scipy.optimize.brentq]. *)
Definition xtol : float := 2e-12.
Definition rtol : float := 0x1p-50.
Definition maxiter : nat := 100.

(** The variables of SciPy's [brentq] iteration. *)
Record state : Type := mkState {
  xpre : float; xcur : float; xblk : float;
  fpre : float; fcur : float; fblk : float;
  spre : float; scur : float
}.

Definition fmin (a b : float) : float := if a <? b then a else b.

(** One pass of the loop of [brentq] per unit of [iter]: re-bracket, keep
    the better end in [xcur], stop within [delta], otherwise take an
    interpolation, extrapolation or bisection step.  With [disp=False] the
    current point is returned when the iterations run out. *)
Fixpoint brentq_loop (f : float -> res float) (iter : nat) (st : state)
  : res float :=
  match iter with
  | O => Ok (xcur st)
  | S iter' =>
      let st1 :=
        if fpre st * fcur st <? 0
        then mkState (xpre st) (xcur st) (xpre st)
                     (fpre st) (fcur st) (fpre st)
                     (xcur st - xpre st) (xcur st - xpre st)
        else st in
      let st2 :=
        if abs (fblk st1) <? abs (fcur st1)
        then mkState (xcur st1) (xblk st1) (xcur st1)
                     (fcur st1) (fblk st1) (fcur st1)
                     (spre st1) (scur st1)
        else st1 in
      let delta := (xtol + rtol * abs (xcur st2)) / 2 in
      let sbis := (xblk st2 - xcur st2) / 2 in
      if (fcur st2 =? 0) || (abs sbis <? delta) then Ok (xcur st2)
      else
        let '(spre', scur') :=
          if (delta <? abs (spre st2)) && (abs (fcur st2) <? abs (fpre st2))
          then
            let stry :=
              if xpre st2 =? xblk st2
              then - fcur st2 * (xcur st2 - xpre st2) / (fcur st2 - fpre st2)
              else
                let dpre := (fpre st2 - fcur st2) / (xpre st2 - xcur st2) in
                let dblk := (fblk st2 - fcur st2) / (xblk st2 - xcur st2) in
                - fcur st2 * (fblk st2 * dblk - fpre st2 * dpre)
                / (dblk * dpre * (fblk st2 - fpre st2)) in
            if 2 * abs stry <? fmin (abs (spre st2)) (3 * abs sbis - delta)
            then (scur st2, stry)
            else (sbis, sbis)
          else (sbis, sbis) in
        let xcur' :=
          if delta <? abs scur' then xcur st2 + scur'
          else xcur st2 + (if 0 <? sbis then delta else - delta) in
        fcur' <~ f xcur' ;;
        brentq_loop f iter'
          (mkState (xcur st2) xcur' (xblk st2)
                   (fcur st2) fcur' (fblk st2) spre' scur')
  end.

(** [scipy.optimize.brentq(f, a, b, disp=False)]. *)
Definition brentq (f : float -> res float) (a b : float) : res float :=
  fa <~ f a ;;
  fb <~ f b ;;
  if 0 <? fa * fb then Err ValueError
  else if fa =? 0 then Ok a
  else if fb =? 0 then Ok b
  else brentq_loop f maxiter (mkState a b 0 fa fb 0 0 0).

(** The binomial coefficient, by the product formula on integers. *)
Fixpoint binomZ (n : Z) (k : nat) : Z :=
  match k with
  | O => 1
  | S k' => (binomZ n k' * (n - Z.of_nat k') / Z.of_nat k)%Z
  end.

Definition arange (start stop : Z) : list Z :=
  map (fun k => (start + Z.of_nat k)%Z) (seq 0 (Z.to_nat (stop - start))).

Fixpoint mapM {A B} (f : A -> res B) (l : list A) : res (list B) :=
  match l with
  | [] => Ok []
  | a :: l' => b <~ f a ;; bs <~ mapM f l' ;; Ok (b :: bs)
  end.

Fixpoint np_multiply (xs ys : list float) : res (list float) :=
  match xs, ys with
  | x :: xs', y :: ys' =>
      r <~ np_mul x y ;; rs <~ np_multiply xs' ys' ;; Ok (r :: rs)
  | _, _ => Ok []
  end.

(** [np.sum], in the order NumPy adds fewer than eight elements. *)
Fixpoint np_sum_from (acc : float) (xs : list float) : res float :=
  match xs with
  | [] => Ok acc
  | x :: xs' => acc' <~ np_add acc x ;; np_sum_from acc' xs'
  end.
Definition np_sum (xs : list float) : res float := np_sum_from 0 xs.

Definition StoneMod (Rtot Kd v Kx L0 : float) : res (float * float * float) :=
  v <~ np_int v ;;
  let diffFunAnon := diffFunAnon Rtot Kd v Kx L0 in
  f0 <~ diffFunAnon 0 ;;
  fR <~ diffFunAnon Rtot ;;
  p <~ np_mul f0 fR ;;
  if 0 <? p then Err RuntimeError else
  Req <~ brentq diffFunAnon 0 Rtot ;;
  let binoms := map (fun k => float_of_Z (binomZ v (Z.to_nat k)))
                    (arange 1 (v + 1)) in
  scaled <~ mapM (np_mul (L0 * (1 / Kd) * Req)) binoms ;;
  powers <~ mapM (np_pow (Kx * Req)) (arange 0 v) ;;
  vieq <~ np_multiply scaled powers ;;
  Lbound <~ np_sum vieq ;;
  prod2 <~ np_multiply (skipn 1 vieq) (map float_of_Z (arange 2 (v + 1))) ;;
  Rmulti <~ np_sum prod2 ;;
  prod1 <~ np_multiply vieq (map float_of_Z (arange 1 (v + 1))) ;;
  Rbnd <~ np_sum prod1 ;;
  Ok (Lbound, Rbnd, Rmulti).

(** The value found by the root-finding step of [StoneMod]. *)
Definition Req (Rtot Kd v Kx L0 : float) : res float :=
  v <~ np_int v ;;
  brentq (diffFunAnon Rtot Kd v Kx L0) 0 Rtot.

(** The data-model domain, for float arguments. *)
Definition valid (Rtot Kd v Kx L0 : float) : bool :=
  (0 <? Rtot) && is_finite Rtot && (0 <? Kd) && is_finite Kd
  && match np_int v with
     | Ok n => (0 <? n)%Z && (float_of_Z n =? v)
     | Err _ => false
     end
  && (0 <=? Kx) && is_finite Kx && (0 <=? L0) && is_finite L0.
End B64.

(** ** Integers and ranges *)

Lemma np_int_IZR (z : Z) : np_int (IZR z) = z.
Proof.
  unfold np_int. destruct (Rle_dec 0 (IZR z)) as [H|H].
  - symmetry. apply Int_part_spec. lra.
  - rewrite <- opp_IZR.
    rewrite <- (Int_part_spec (IZR (- z)) (- z)) by lra. lia.
Qed.

Lemma arange_length (start stop : Z) :
  length (arange start stop) = Z.to_nat (stop - start).
Proof. unfold arange. now rewrite length_map, length_seq. Qed.

Lemma arange_nil (start stop : Z) : (stop <= start)%Z -> arange start stop = [].
Proof.
  intros H. unfold arange.
  replace (Z.to_nat (stop - start)) with O by lia. reflexivity.
Qed.

Example arange_1_4 : arange 1 4 = [1; 2; 3]%Z.
Proof. reflexivity. Qed.

Example arange_2_1 : arange 2 1 = [].
Proof. reflexivity. Qed.

Example choose_row_4 :
  map (choose 4) [0; 1; 2; 3; 4; 5]%nat = [1; 4; 6; 4; 1; 0]%nat.
Proof. reflexivity. Qed.

(** ** Finite sums over an index range *)

Lemma np_sum_app (xs ys : list R) : np_sum (xs ++ ys) = np_sum xs + np_sum ys.
Proof. induction xs as [|x xs IH]; simpl; [lra | rewrite IH; lra]. Qed.

Lemma sumn_0 (F : nat -> R) : sumn F 0 = 0.
Proof. reflexivity. Qed.

Lemma sumn_S (F : nat -> R) (n : nat) : sumn F (S n) = sumn F n + F n.
Proof.
  unfold sumn. rewrite seq_S, map_app, np_sum_app. simpl. lra.
Qed.

Lemma sumn_shift (F : nat -> R) (n : nat) :
  sumn F (S n) = F O + sumn (fun k => F (S k)) n.
Proof.
  unfold sumn. simpl. now rewrite <- seq_shift, map_map.
Qed.

Lemma sumn_ext (F G : nat -> R) (n : nat) :
  (forall k, (k < n)%nat -> F k = G k) -> sumn F n = sumn G n.
Proof.
  induction n as [|n IH]; intros H; [reflexivity|].
  rewrite !sumn_S, IH, H; auto.
Qed.

Lemma sumn_plus (F G : nat -> R) (n : nat) :
  sumn (fun k => F k + G k) n = sumn F n + sumn G n.
Proof.
  induction n as [|n IH]; [rewrite !sumn_0; lra|].
  rewrite !sumn_S, IH. lra.
Qed.

Lemma sumn_scal (c : R) (F : nat -> R) (n : nat) :
  sumn (fun k => c * F k) n = c * sumn F n.
Proof.
  induction n as [|n IH]; [rewrite !sumn_0; lra|].
  rewrite !sumn_S, IH. lra.
Qed.

Lemma sumn_le (F G : nat -> R) (n : nat) :
  (forall k, (k < n)%nat -> F k <= G k) -> sumn F n <= sumn G n.
Proof.
  induction n as [|n IH]; intros H; [rewrite !sumn_0; lra|].
  rewrite !sumn_S. specialize (H n (Nat.lt_succ_diag_r n)) as Hn.
  assert (sumn F n <= sumn G n) by (apply IH; intros; apply H; lia). lra.
Qed.

Lemma sumn_nonneg (F : nat -> R) (n : nat) :
  (forall k, (k < n)%nat -> 0 <= F k) -> 0 <= sumn F n.
Proof.
  intros H. replace 0 with (sumn (fun _ => 0) n).
  - now apply sumn_le.
  - clear H. induction n as [|n IH]; [reflexivity | rewrite sumn_S, IH; lra].
Qed.

Lemma sigma_sumn (lo len : nat) (F : nat -> R) :
  sigma lo len F = sumn (fun k => F (lo + k)%nat) len.
Proof.
  revert lo. induction len as [|len IH]; intros lo; [reflexivity|].
  rewrite sumn_shift. simpl. rewrite IH, Nat.add_0_r. f_equal.
  apply sumn_ext. intros k _. f_equal. lia.
Qed.

Lemma np_multiply_map {A} (F G : A -> R) (l : list A) :
  np_multiply (map F l) (map G l) = map (fun k => F k * G k) l.
Proof. induction l as [|a l IH]; simpl; [reflexivity | now rewrite IH]. Qed.

(** ** Binomial coefficients *)

Lemma choose_0_r (n : nat) : choose n 0 = 1%nat.
Proof. destruct n; reflexivity. Qed.

Lemma choose_pascal (n k : nat) :
  choose (S n) (S k) = (choose n k + choose n (S k))%nat.
Proof. reflexivity. Qed.

Lemma choose_gt (n k : nat) : (n < k)%nat -> choose n k = 0%nat.
Proof.
  revert k. induction n as [|n IH]; intros [|k] H; try lia; [reflexivity|].
  rewrite choose_pascal, !IH by lia. reflexivity.
Qed.

Lemma choose_diag (n : nat) : choose n n = 1%nat.
Proof.
  induction n as [|n IH]; [reflexivity|].
  rewrite choose_pascal, IH, choose_gt by lia. reflexivity.
Qed.

Lemma choose_1_r (n : nat) : choose n 1 = n.
Proof.
  induction n as [|n IH]; [reflexivity|].
  rewrite choose_pascal, IH, choose_0_r. lia.
Qed.

Lemma choose_absorb (n k : nat) :
  (S k * choose (S n) (S k) = S n * choose n k)%nat.
Proof.
  revert k. induction n as [|n IH]; intros k.
  - destruct k as [|k]; [reflexivity|].
    rewrite choose_pascal, !(choose_gt 0) by lia. lia.
  - destruct k as [|k].
    + rewrite choose_1_r, choose_0_r. lia.
    + pose proof (IH (S k)) as H1. pose proof (IH k) as H2.
      rewrite (choose_pascal (S n) (S k)).
      rewrite (choose_pascal n k) in H2 |- *.
      set (a := choose n k) in *. set (b := choose n (S k)) in *.
      set (c := choose (S n) (S (S k))) in *. nia.
Qed.

(** Pascal's coefficient is the factorial one on [k <= n]. *)
Lemma choose_fact (n k : nat) :
  (k <= n)%nat -> (choose n k * (fact k * fact (n - k)) = fact n)%nat.
Proof.
  revert k. induction n as [|n IH]; intros k H.
  - replace k with O by lia. reflexivity.
  - destruct k as [|k]; [rewrite choose_0_r; simpl; lia|].
    destruct (Nat.eq_dec k n) as [->|Hne].
    + rewrite choose_diag, Nat.sub_diag. simpl. lia.
    + rewrite choose_pascal. pose proof (IH k ltac:(lia)) as H1.
      pose proof (IH (S k) ltac:(lia)) as H2.
      replace (S n - S k)%nat with (n - k)%nat by lia.
      replace (n - k)%nat with (S (n - S k)) in * by lia.
      change (fact (S n)) with (S n * fact n)%nat.
      change (fact (S k)) with (S k * fact k)%nat in *.
      change (fact (S (n - S k))) with (S (n - S k) * fact (n - S k))%nat in *.
      set (a := choose n k) in *. set (b := choose n (S k)) in *.
      set (fk := fact k) in *. set (fd := fact (n - S k)) in *.
      set (fn := fact n) in *.
      assert (Hd : (S k + S (n - S k) = S n)%nat) by lia.
      nia.
Qed.

Lemma choose_C (n k : nat) : (k <= n)%nat -> INR (choose n k) = C n k.
Proof.
  intros H. unfold C. pose proof (choose_fact n k H) as E.
  apply (f_equal INR) in E. rewrite !mult_INR in E. rewrite <- E.
  field. split; apply INR_fact_neq_0.
Qed.

(** ** The series in closed form *)

(** Binomial theorem for Pascal's coefficients. *)
Lemma sumn_choose_pow (n : nat) (y : R) :
  sumn (fun k => INR (choose n k) * y ^ k) (S n) = (1 + y) ^ n.
Proof.
  induction n as [|n IH].
  - rewrite sumn_S, sumn_0. simpl. lra.
  - rewrite sumn_shift, choose_0_r.
    rewrite (sumn_ext _ (fun k => y * (INR (choose n k) * y ^ k)
                                  + INR (choose n (S k)) * y ^ S k)).
    2:{ intros k _. rewrite choose_pascal, plus_INR. simpl. ring. }
    rewrite sumn_plus, sumn_scal, IH.
    assert (E : 1 + sumn (fun k => INR (choose n (S k)) * y ^ S k) (S n)
                = (1 + y) ^ n).
    { rewrite <- IH.
      rewrite (sumn_shift (fun k => INR (choose n k) * y ^ k)), choose_0_r.
      rewrite (sumn_S (fun k => INR (choose n (S k)) * y ^ S k)).
      rewrite choose_gt by lia. simpl. lra. }
    simpl. simpl in E. lra.
Qed.

(** [sum_(k<n) (k+1) C(n,k+1) y^k = n (1+y)^(n-1)]. *)
Lemma sumn_weighted_choose (n : nat) (y : R) :
  sumn (fun k => INR (S k) * (INR (choose n (S k)) * y ^ k)) n
  = INR n * (1 + y) ^ (n - 1).
Proof.
  destruct n as [|n]; [rewrite sumn_0; simpl; lra|].
  replace (S n - 1)%nat with n by lia.
  rewrite <- sumn_choose_pow, <- sumn_scal.
  apply sumn_ext. intros k _.
  rewrite <- Rmult_assoc, <- mult_INR, choose_absorb, mult_INR. ring.
Qed.

(** [sum_(k<n) C(n,k+1) y^k = sum_(k<n) (1+y)^k]. *)
Lemma sumn_choose_geom (n : nat) (y : R) :
  sumn (fun k => INR (choose n (S k)) * y ^ k) n
  = sumn (fun k => (1 + y) ^ k) n.
Proof.
  induction n as [|n IH]; [reflexivity|].
  rewrite (sumn_S (fun k => (1 + y) ^ k)), <- IH, <- sumn_choose_pow.
  rewrite (sumn_ext _ (fun k => INR (choose n k) * y ^ k
                                + INR (choose n (S k)) * y ^ k)).
  2:{ intros k _. rewrite choose_pascal, plus_INR. ring. }
  rewrite sumn_plus, (sumn_S (fun k => INR (choose n (S k)) * y ^ k)).
  rewrite choose_gt by lia. simpl. lra.
Qed.

(** ** The root-finder *)

Lemma brentq_root_spec (f : R -> R) (a b : R) :
  (exists x, root_in f a b x) -> root_in f a b (brentq_root f a b).
Proof.
  intros Hex. unfold brentq_root.
  destruct (Req_dec_T (f a) 0) as [Ha|Ha].
  { split; [|exact Ha]. split; [apply Rmin_l | apply Rmax_l]. }
  destruct (Req_dec_T (f b) 0) as [Hb|Hb].
  { split; [|exact Hb]. split; [apply Rmin_r | apply Rmax_r]. }
  now apply epsilon_spec.
Qed.

(** Intermediate values: a continuous function whose values at the two
    ends of a bracket do not have the same sign has a root inside it. *)
Lemma root_exists (f : R -> R) (a b : R) :
  continuity f -> ~ 0 < f a * f b -> exists x, root_in f a b x.
Proof.
  intros Hc Hs. unfold root_in.
  destruct (Rle_dec a b) as [Hab|Hab].
  - destruct (IVT_cor f a b Hc Hab ltac:(lra)) as [z Hz].
    exists z. rewrite Rmin_left, Rmax_right by lra. exact Hz.
  - destruct (IVT_cor f b a Hc ltac:(lra) ltac:(lra)) as [z Hz].
    exists z. rewrite Rmin_right, Rmax_left by lra. exact Hz.
Qed.

Lemma root_in_ext (f g : R -> R) (a b x : R) :
  (forall y, f y = g y) -> root_in g a b x -> root_in f a b x.
Proof. intros E [H1 H2]. split; [exact H1 | now rewrite E]. Qed.

Lemma diffFunAnon_poly (Rtot Kd : R) (v : Z) (Kx L0 x : R) :
  (1 <= v)%Z ->
  diffFunAnon Rtot Kd v Kx L0 x
  = massBalance Rtot (IZR v * L0 * (1 / Kd)) Kx (Z.to_nat (v - 1)) x.
Proof.
  intros Hv. unfold diffFunAnon, massBalance.
  rewrite pow_powerRZ, Z2Nat.id by lia. reflexivity.
Qed.

Lemma massBalance_continuity (Rtot c Kx : R) (n : nat) :
  continuity (massBalance Rtot c Kx n).
Proof.
  apply derivable_continuous. unfold massBalance. reg.
Qed.

Lemma diffFunAnon_root_exists (Rtot Kd : R) (v : Z) (Kx L0 a b : R) :
  (1 <= v)%Z ->
  ~ 0 < diffFunAnon Rtot Kd v Kx L0 a * diffFunAnon Rtot Kd v Kx L0 b ->
  exists x, root_in (diffFunAnon Rtot Kd v Kx L0) a b x.
Proof.
  intros Hv Hs. rewrite !diffFunAnon_poly in Hs by exact Hv.
  destruct (root_exists _ a b (massBalance_continuity Rtot _ Kx _) Hs)
    as [x Hx].
  exists x. eapply root_in_ext; [|exact Hx].
  intros y. now apply diffFunAnon_poly.
Qed.

(** ** The arrays of StoneMod in index form *)

Lemma vieq_map (Kd : R) (v : Z) (Kx L0 Req : R) :
  vieq Kd v Kx L0 Req
  = map (term Kd (Z.to_nat v) Kx L0 Req) (seq 0 (Z.to_nat v)).
Proof.
  unfold vieq, np_scale, binom, np_power, arange.
  replace (Z.to_nat (v + 1 - 1)) with (Z.to_nat v) by lia.
  replace (Z.to_nat (v - 0)) with (Z.to_nat v) by lia.
  rewrite !map_map, np_multiply_map. apply map_ext. intros k.
  unfold term. rewrite pow_powerRZ. simpl (0 + Z.of_nat k)%Z.
  replace (Z.to_nat (1 + Z.of_nat k)) with (S k) by lia. reflexivity.
Qed.

Lemma Lbound_of_sumn (Kd : R) (v : Z) (Kx L0 Req : R) :
  Lbound_of Kd v Kx L0 Req = sumn (term Kd (Z.to_nat v) Kx L0 Req) (Z.to_nat v).
Proof. unfold Lbound_of. now rewrite vieq_map. Qed.

Lemma Rbnd_of_sumn (Kd : R) (v : Z) (Kx L0 Req : R) :
  Rbnd_of Kd v Kx L0 Req
  = sumn (fun k => term Kd (Z.to_nat v) Kx L0 Req k * INR (S k)) (Z.to_nat v).
Proof.
  unfold Rbnd_of, arange_float, arange. rewrite vieq_map.
  replace (Z.to_nat (v + 1 - 1)) with (Z.to_nat v) by lia.
  rewrite map_map, np_multiply_map. unfold sumn. f_equal.
  apply map_ext. intros k. f_equal.
  rewrite S_INR, plus_IZR, <- INR_IZR_INZ. lra.
Qed.

Lemma skipn_1_map_seq {A} (F : nat -> A) (n : nat) :
  skipn 1 (map F (seq 0 n)) = map (fun k => F (S k)) (seq 0 (n - 1)).
Proof.
  destruct n as [|n]; [reflexivity|].
  simpl. rewrite Nat.sub_0_r, <- seq_shift, map_map. reflexivity.
Qed.

Lemma Rmulti_of_sumn (Kd : R) (v : Z) (Kx L0 Req : R) :
  Rmulti_of Kd v Kx L0 Req
  = sumn (fun k => term Kd (Z.to_nat v) Kx L0 Req (S k) * INR (S (S k)))
         (Z.to_nat v - 1).
Proof.
  unfold Rmulti_of, arange_float, arange. rewrite vieq_map, skipn_1_map_seq.
  replace (Z.to_nat (v + 1 - 2)) with (Z.to_nat v - 1)%nat by lia.
  rewrite map_map, np_multiply_map. unfold sumn. f_equal.
  apply map_ext. intros k. f_equal.
  rewrite !S_INR, plus_IZR, <- INR_IZR_INZ. lra.
Qed.

(** ** The three paths through StoneMod *)

Lemma StoneMod_zero_division (Rtot Kd v Kx L0 : R) :
  Kd = 0 -> StoneMod Rtot Kd v Kx L0 = ([], Raise ZeroDivisionError).
Proof.
  intros H. unfold StoneMod. destruct (Req_dec_T Kd 0); [reflexivity|tauto].
Qed.

Lemma StoneMod_no_solution (Rtot Kd v Kx L0 : R) :
  Kd <> 0 ->
  0 < diffFunAnon Rtot Kd (np_int v) Kx L0 0
      * diffFunAnon Rtot Kd (np_int v) Kx L0 Rtot ->
  StoneMod Rtot Kd v Kx L0 = ([], Raise RuntimeError).
Proof.
  intros HK H. unfold StoneMod. destruct (Req_dec_T Kd 0); [tauto|].
  destruct (Rlt_dec 0 _); [reflexivity|tauto].
Qed.

Lemma StoneMod_solved (Rtot Kd v Kx L0 : R) :
  Kd <> 0 ->
  ~ 0 < diffFunAnon Rtot Kd (np_int v) Kx L0 0
        * diffFunAnon Rtot Kd (np_int v) Kx L0 Rtot ->
  StoneMod Rtot Kd v Kx L0
  = ([CallBrentq 0 Rtot],
     OK (Lbound_of Kd (np_int v) Kx L0 (Req_of Rtot Kd v Kx L0),
         Rbnd_of Kd (np_int v) Kx L0 (Req_of Rtot Kd v Kx L0),
         Rmulti_of Kd (np_int v) Kx L0 (Req_of Rtot Kd v Kx L0))).
Proof.
  intros HK H. unfold StoneMod. destruct (Req_dec_T Kd 0); [tauto|].
  destruct (Rlt_dec 0 _) as [H'|H']; [tauto|].
  unfold brentq. destruct (Rlt_dec 0 _); [tauto|]. reflexivity.
Qed.

(** A returned triple comes from the third path. *)
Lemma StoneMod_OK_inv (Rtot Kd v Kx L0 : R) tr t :
  StoneMod Rtot Kd v Kx L0 = (tr, OK t) ->
  Kd <> 0 /\
  ~ 0 < diffFunAnon Rtot Kd (np_int v) Kx L0 0
        * diffFunAnon Rtot Kd (np_int v) Kx L0 Rtot /\
  tr = [CallBrentq 0 Rtot] /\
  t = (Lbound_of Kd (np_int v) Kx L0 (Req_of Rtot Kd v Kx L0),
       Rbnd_of Kd (np_int v) Kx L0 (Req_of Rtot Kd v Kx L0),
       Rmulti_of Kd (np_int v) Kx L0 (Req_of Rtot Kd v Kx L0)).
Proof.
  intros H. destruct (Req_dec_T Kd 0) as [HK|HK].
  { rewrite StoneMod_zero_division in H by exact HK. discriminate. }
  destruct (Rlt_dec 0 (diffFunAnon Rtot Kd (np_int v) Kx L0 0
                       * diffFunAnon Rtot Kd (np_int v) Kx L0 Rtot))
    as [Hs|Hs].
  { rewrite StoneMod_no_solution in H by assumption. discriminate. }
  rewrite StoneMod_solved in H by assumption. inversion H. tauto.
Qed.

(** The value returned by the root-finder is a root in the bracket. *)
Lemma Req_of_root (Rtot Kd v Kx L0 : R) :
  (1 <= np_int v)%Z ->
  ~ 0 < diffFunAnon Rtot Kd (np_int v) Kx L0 0
        * diffFunAnon Rtot Kd (np_int v) Kx L0 Rtot ->
  root_in (diffFunAnon Rtot Kd (np_int v) Kx L0) 0 Rtot
          (Req_of Rtot Kd v Kx L0).
Proof.
  intros Hv Hs. apply brentq_root_spec. now apply diffFunAnon_root_exists.
Qed.

(** ** The series against the specification's formulas *)

Lemma term_vieq_spec (Kd : R) (n : nat) (Kx L0 Req : R) (k : nat) :
  (k < n)%nat -> term Kd n Kx L0 Req k = vieq_spec Kd n Kx L0 Req (S k).
Proof.
  intros H. unfold term, vieq_spec. rewrite choose_C by lia.
  replace (S k - 1)%nat with k by lia. reflexivity.
Qed.

Lemma Lbound_of_spec (Kd : R) (v : Z) (Kx L0 Req : R) :
  Lbound_of Kd v Kx L0 Req = Lbound_spec Kd (Z.to_nat v) Kx L0 Req.
Proof.
  rewrite Lbound_of_sumn. unfold Lbound_spec. rewrite sigma_sumn.
  apply sumn_ext. intros k Hk. now apply term_vieq_spec.
Qed.

Lemma Rbnd_of_spec (Kd : R) (v : Z) (Kx L0 Req : R) :
  Rbnd_of Kd v Kx L0 Req = Rbnd_spec Kd (Z.to_nat v) Kx L0 Req.
Proof.
  rewrite Rbnd_of_sumn. unfold Rbnd_spec. rewrite sigma_sumn.
  apply sumn_ext. intros k Hk. rewrite term_vieq_spec by exact Hk.
  simpl (1 + k)%nat. ring.
Qed.

Lemma Rmulti_of_spec (Kd : R) (v : Z) (Kx L0 Req : R) :
  Rmulti_of Kd v Kx L0 Req = Rmulti_spec Kd (Z.to_nat v) Kx L0 Req.
Proof.
  rewrite Rmulti_of_sumn. unfold Rmulti_spec. rewrite sigma_sumn.
  apply sumn_ext. intros k Hk. rewrite term_vieq_spec by lia.
  simpl (2 + k)%nat. ring.
Qed.

(** C1: whenever StoneMod returns, with [Req] the value the root-finder
    returned for the mass-balance function on [0, Rtot] (a root of it in
    that bracket when the valency is at least 1), the returned triple is
    [(Lbound, Rbnd, Rmulti)] in this order, where [Lbound] is the sum of
    [vieq[i]] for [i = 1..v], [Rbnd] the sum of [i * vieq[i]] for
    [i = 1..v], [Rmulti] the sum of [i * vieq[i]] for [i = 2..v], and
    [vieq[i] = L0 * (1/Kd) * Req * C(v,i) * (Kx*Req)^(i-1)]. *)
Theorem StoneMod_series (Rtot Kd v Kx L0 : R) tr t :
  StoneMod Rtot Kd v Kx L0 = (tr, OK t) ->
  let n := Z.to_nat (np_int v) in
  let f := diffFunAnon Rtot Kd (np_int v) Kx L0 in
  let Req := Req_of Rtot Kd v Kx L0 in
  brentq f 0 Rtot = (tr, OK Req) /\
  ((1 <= np_int v)%Z -> root_in f 0 Rtot Req) /\
  t = (Lbound_spec Kd n Kx L0 Req,
       Rbnd_spec Kd n Kx L0 Req,
       Rmulti_spec Kd n Kx L0 Req).
Proof.
  intros H n f Req. apply StoneMod_OK_inv in H.
  destruct H as (HK & Hs & -> & ->). split; [|split].
  - unfold brentq. fold f. destruct (Rlt_dec 0 (f 0 * f Rtot)); [tauto|].
    reflexivity.
  - intros Hv. now apply Req_of_root.
  - now rewrite Lbound_of_spec, Rbnd_of_spec, Rmulti_of_spec.
Qed.


(** ** Receptor conservation *)

(** [Rbnd] in closed form: the bound receptor of the mass balance. *)
Lemma Rbnd_of_closed (Kd : R) (v : Z) (Kx L0 Req : R) :
  (1 <= v)%Z ->
  Rbnd_of Kd v Kx L0 Req
  = Req * (IZR v * L0 * (1 / Kd) * (1 + Kx * Req) ^ Z.to_nat (v - 1)).
Proof.
  intros Hv. rewrite Rbnd_of_sumn.
  rewrite (sumn_ext _ (fun k => L0 * (1 / Kd) * Req
      * (INR (S k) * (INR (choose (Z.to_nat v) (S k)) * (Kx * Req) ^ k)))).
  2:{ intros k _. unfold term. ring. }
  rewrite sumn_scal, sumn_weighted_choose.
  replace (Z.to_nat v - 1)%nat with (Z.to_nat (v - 1)) by lia.
  rewrite INR_IZR_INZ, Z2Nat.id by lia. ring.
Qed.

Lemma Rbnd_of_balance (Rtot Kd : R) (v : Z) (Kx L0 Req : R) :
  (1 <= v)%Z ->
  Rbnd_of Kd v Kx L0 Req = Rtot - Req - diffFunAnon Rtot Kd v Kx L0 Req.
Proof.
  intros Hv. rewrite Rbnd_of_closed, diffFunAnon_poly by exact Hv.
  unfold massBalance. ring.
Qed.

(** [Rbnd] is the singly-bound term plus [Rmulti]. *)
Lemma Rbnd_of_split (Kd : R) (v : Z) (Kx L0 Req : R) :
  (1 <= v)%Z ->
  Rbnd_of Kd v Kx L0 Req
  = IZR v * (L0 * (1 / Kd) * Req) + Rmulti_of Kd v Kx L0 Req.
Proof.
  intros Hv. rewrite Rbnd_of_sumn, Rmulti_of_sumn.
  destruct (Z.to_nat v) as [|m] eqn:E; [lia|].
  rewrite sumn_shift. replace (S m - 1)%nat with m by lia.
  f_equal. unfold term. rewrite choose_1_r, <- E, INR_IZR_INZ, Z2Nat.id by lia.
  simpl. ring.
Qed.

(** [Lbound] as a geometric sum. *)
Lemma Lbound_of_closed (Kd : R) (v : Z) (Kx L0 Req : R) :
  Lbound_of Kd v Kx L0 Req
  = L0 * (1 / Kd) * Req * sumn (fun k => (1 + Kx * Req) ^ k) (Z.to_nat v).
Proof.
  rewrite Lbound_of_sumn, <- sumn_choose_geom, <- sumn_scal.
  apply sumn_ext. intros k _. unfold term. ring.
Qed.

(** ** Inputs of the data-model domain *)

Lemma valid_np_int (Rtot Kd v Kx L0 : R) :
  valid Rtot Kd v Kx L0 -> (1 <= np_int v)%Z /\ v = IZR (np_int v).
Proof.
  intros (_ & _ & (n & Hn & ->) & _). rewrite np_int_IZR. split; [lia|easy].
Qed.

Lemma valid_coeff (Rtot Kd v Kx L0 : R) :
  valid Rtot Kd v Kx L0 -> 0 <= IZR (np_int v) * L0 * (1 / Kd).
Proof.
  intros H. destruct (valid_np_int _ _ _ _ _ H) as [Hv _].
  destruct H as (_ & HK & _ & _ & HL).
  apply IZR_le in Hv. assert (0 < 1 / Kd) by (apply Rdiv_lt_0_compat; lra).
  apply Rmult_le_pos; [apply Rmult_le_pos|]; lra.
Qed.

(** The bracket of a valid input always holds a sign change. *)
Lemma valid_bracket (Rtot Kd v Kx L0 : R) :
  valid Rtot Kd v Kx L0 ->
  diffFunAnon Rtot Kd (np_int v) Kx L0 0 = Rtot /\
  diffFunAnon Rtot Kd (np_int v) Kx L0 Rtot <= 0.
Proof.
  intros H. destruct (valid_np_int _ _ _ _ _ H) as [Hv _].
  pose proof (valid_coeff _ _ _ _ _ H) as Hc.
  destruct H as (HR & HK & _ & HX & HL).
  rewrite !diffFunAnon_poly by exact Hv. unfold massBalance. split; [ring|].
  assert (Hp : 0 <= (1 + Kx * Rtot) ^ Z.to_nat (np_int v - 1)).
  { apply pow_le. nra. }
  pose proof (Rmult_le_pos _ _ Hc Hp) as Hcp.
  pose proof (Rmult_le_pos _ _ (Rlt_le _ _ HR) Hcp). lra.
Qed.

Lemma valid_sign (Rtot Kd v Kx L0 : R) :
  valid Rtot Kd v Kx L0 ->
  ~ 0 < diffFunAnon Rtot Kd (np_int v) Kx L0 0
        * diffFunAnon Rtot Kd (np_int v) Kx L0 Rtot.
Proof.
  intros H. destruct (valid_bracket _ _ _ _ _ H) as [E Hle]. rewrite E.
  destruct H as (HR & _). nra.
Qed.

Lemma valid_Kd (Rtot Kd v Kx L0 : R) : valid Rtot Kd v Kx L0 -> Kd <> 0.
Proof. intros (_ & HK & _). lra. Qed.

(** On a valid input StoneMod returns, and [Req] is a root in [0, Rtot]. *)
Lemma valid_solved (Rtot Kd v Kx L0 : R) :
  valid Rtot Kd v Kx L0 ->
  StoneMod Rtot Kd v Kx L0
  = ([CallBrentq 0 Rtot],
     OK (Lbound_of Kd (np_int v) Kx L0 (Req_of Rtot Kd v Kx L0),
         Rbnd_of Kd (np_int v) Kx L0 (Req_of Rtot Kd v Kx L0),
         Rmulti_of Kd (np_int v) Kx L0 (Req_of Rtot Kd v Kx L0))).
Proof.
  intros H. apply StoneMod_solved; [eapply valid_Kd | apply valid_sign]; eauto.
Qed.

Lemma valid_Req (Rtot Kd v Kx L0 : R) :
  valid Rtot Kd v Kx L0 ->
  0 <= Req_of Rtot Kd v Kx L0 <= Rtot /\
  diffFunAnon Rtot Kd (np_int v) Kx L0 (Req_of Rtot Kd v Kx L0) = 0.
Proof.
  intros H. destruct (valid_np_int _ _ _ _ _ H) as [Hv _].
  destruct (Req_of_root Rtot Kd v Kx L0 Hv (valid_sign _ _ _ _ _ H))
    as [Hin Hz].
  destruct H as (HR & _).
  rewrite Rmin_left, Rmax_right in Hin by lra. split; assumption.
Qed.

(** C3, amended: on a valid input on which StoneMod returns
    [(Lbound, Rbnd, Rmulti)], the value [Req] found by the root-finder lies
    in [0, Rtot], [Rmulti <= Rbnd], and [Rbnd = Rtot - Req - f(Req)] with
    [f(Req)] the residual of the mass balance at [Req]; so [Rbnd <= Rtot]
    holds when the residual is at least [- Req], as it is at a root. *)
Theorem StoneMod_conservation (Rtot Kd v Kx L0 : R) tr Lbound Rbnd Rmulti :
  valid Rtot Kd v Kx L0 ->
  StoneMod Rtot Kd v Kx L0 = (tr, OK (Lbound, Rbnd, Rmulti)) ->
  let Req := Req_of Rtot Kd v Kx L0 in
  let residual := diffFunAnon Rtot Kd (np_int v) Kx L0 Req in
  0 <= Req <= Rtot /\ Rmulti <= Rbnd /\
  Rbnd = Rtot - Req - residual /\
  (- Req <= residual -> Rbnd <= Rtot).
Proof.
  intros H E Req residual. rewrite valid_solved in E by exact H.
  inversion E; subst; clear E.
  destruct (valid_np_int _ _ _ _ _ H) as [Hv _].
  destruct (valid_Req _ _ _ _ _ H) as [Hin _]. fold Req in Hin |- *.
  assert (Eb : Rbnd_of Kd (np_int v) Kx L0 Req = Rtot - Req - residual)
    by (apply Rbnd_of_balance; exact Hv).
  split; [exact Hin|]. split; [|split; [exact Eb | intros Hres; lra]].
  rewrite (Rbnd_of_split Kd (np_int v)) by exact Hv.
  pose proof (valid_coeff _ _ _ _ _ H) as Hc.
  assert (0 <= IZR (np_int v) * L0 * (1 / Kd) * Req)
    by (apply Rmult_le_pos; lra).
  lra.
Qed.

(** ** Valency one *)

Lemma np_int_1 : np_int 1 = 1%Z.
Proof. exact (np_int_IZR 1). Qed.

Lemma np_int_0 : np_int 0 = 0%Z.
Proof. exact (np_int_IZR 0). Qed.

(** C5, amended: on a valid input with [v = 1] the root-finding step of
    StoneMod is [brentq] on the mass-balance function over [0, Rtot], and
    the closed form [Rtot*Kd / (Kd + L0)] lies in that bracket and is the
    only root of that function. *)
Theorem StoneMod_root_valency_1 (Rtot Kd Kx L0 : R) :
  valid Rtot Kd 1 Kx L0 ->
  let f := diffFunAnon Rtot Kd (np_int 1) Kx L0 in
  let r := Rtot * Kd / (Kd + L0) in
  StoneMod Rtot Kd 1 Kx L0
  = (Req <- brentq f 0 Rtot ;;
     ret (Lbound_of Kd (np_int 1) Kx L0 Req,
          Rbnd_of Kd (np_int 1) Kx L0 Req,
          Rmulti_of Kd (np_int 1) Kx L0 Req)) /\
  0 < r <= Rtot /\ f r = 0 /\ (forall x, f x = 0 -> x = r).
Proof.
  intros H f r. pose proof (valid_sign _ _ _ _ _ H) as Hs.
  pose proof H as (HR & HK & _ & _ & HL).
  assert (Hd : 0 < Kd + L0) by lra.
  assert (Ef : forall x, f x = Rtot - x * ((Kd + L0) / Kd)).
  { intros x. unfold f. rewrite np_int_1. unfold diffFunAnon. simpl.
    field. lra. }
  split; [|split; [split|split]].
  - rewrite valid_solved by exact H. unfold brentq, bind, ret. fold f.
    destruct (Rlt_dec 0 (f 0 * f Rtot)); [tauto | reflexivity].
  - unfold r. apply Rdiv_lt_0_compat; [apply Rmult_lt_0_compat|]; lra.
  - unfold r. apply Rmult_le_reg_r with (Kd + L0); [exact Hd|].
    unfold Rdiv. rewrite Rmult_assoc, Rinv_l by lra.
    pose proof (Rmult_le_pos _ _ (Rlt_le _ _ HR) HL). lra.
  - rewrite Ef. unfold r. field. lra.
  - intros x Hx. rewrite Ef in Hx. unfold r.
    apply Rmult_eq_reg_r with ((Kd + L0) / Kd).
    + replace (Rtot * Kd / (Kd + L0) * ((Kd + L0) / Kd)) with Rtot
        by (field; lra).
      lra.
    + apply Rgt_not_eq. apply Rdiv_lt_0_compat; lra.
Qed.

Lemma outputs_valency_1 (Kd Kx L0 Req : R) :
  Rmulti_of Kd 1 Kx L0 Req = 0 /\
  Rbnd_of Kd 1 Kx L0 Req = Lbound_of Kd 1 Kx L0 Req.
Proof.
  rewrite Rmulti_of_sumn, Rbnd_of_sumn, Lbound_of_sumn.
  change (Z.to_nat 1) with 1%nat. simpl (1 - 1)%nat.
  rewrite !sumn_S, !sumn_0. simpl. split; ring.
Qed.

(** C6: on a valid input with [v = 1] on which StoneMod returns, the
    returned [Rmulti] is exactly 0 and the returned [Rbnd] equals the
    returned [Lbound]. *)
Theorem StoneMod_valency_1 (Rtot Kd Kx L0 : R) tr Lbound Rbnd Rmulti :
  valid Rtot Kd 1 Kx L0 ->
  StoneMod Rtot Kd 1 Kx L0 = (tr, OK (Lbound, Rbnd, Rmulti)) ->
  Rmulti = 0 /\ Rbnd = Lbound.
Proof.
  intros _ E. apply StoneMod_OK_inv in E. destruct E as (_ & _ & _ & E).
  rewrite np_int_1 in E. inversion E; subst. apply outputs_valency_1.
Qed.

(** ** No ligand, no valency *)

Lemma sumn_zero (F : nat -> R) (n : nat) :
  (forall k, (k < n)%nat -> F k = 0) -> sumn F n = 0.
Proof.
  intros H. rewrite (sumn_ext F (fun _ => 0 * 0) n).
  - rewrite sumn_scal. ring.
  - intros k Hk. rewrite H by exact Hk. ring.
Qed.

Lemma outputs_no_ligand (Kd : R) (v : Z) (Kx Req : R) :
  Lbound_of Kd v Kx 0 Req = 0 /\ Rbnd_of Kd v Kx 0 Req = 0 /\
  Rmulti_of Kd v Kx 0 Req = 0.
Proof.
  rewrite Lbound_of_sumn, Rbnd_of_sumn, Rmulti_of_sumn.
  repeat split; apply sumn_zero; intros k _; unfold term; ring.
Qed.

Lemma outputs_no_valency (Kd : R) (v : Z) (Kx L0 Req : R) :
  (v <= 0)%Z ->
  Lbound_of Kd v Kx L0 Req = 0 /\ Rbnd_of Kd v Kx L0 Req = 0 /\
  Rmulti_of Kd v Kx L0 Req = 0.
Proof.
  intros Hv. rewrite Lbound_of_sumn, Rbnd_of_sumn, Rmulti_of_sumn.
  replace (Z.to_nat v) with O by lia. repeat split; reflexivity.
Qed.

(** C7, amended: on a valid input with [L0 = 0] whose builtin operations
    stay in range, whenever StoneMod returns, it has called the root-finder
    once on [0, Rtot] and the triple is [(Lbound, Rbnd, Rmulti) = (0, 0, 0)]. *)
Theorem StoneMod_no_ligand (Rtot Kd v Kx : R) tr t :
  valid Rtot Kd v Kx 0 -> builtin_in_range Rtot Kd Kx ->
  StoneMod Rtot Kd v Kx 0 = (tr, OK t) ->
  t = (0, 0, 0) /\ tr = [CallBrentq 0 Rtot].
Proof.
  intros _ _ E. apply StoneMod_OK_inv in E. destruct E as (_ & _ & -> & ->).
  destruct (outputs_no_ligand Kd (np_int v) Kx (Req_of Rtot Kd v Kx 0))
    as (-> & -> & ->).
  split; reflexivity.
Qed.

(** ** The no-solution check and the data-model domain *)

(** An input outside the domain (negative ligand concentration) on which
    the check fires: [f(x) = 1 - x*(1 - 1) = 1]. *)
Lemma StoneMod_negative_ligand :
  StoneMod 1 1 1 0 (-1) = ([], Raise RuntimeError).
Proof.
  apply StoneMod_no_solution; [lra|].
  rewrite np_int_1. unfold diffFunAnon. simpl. lra.
Qed.

(** C8, refuted: no input of the data-model domain makes StoneMod raise the
    no-solution error. *)
Lemma no_valid_input_without_solution :
  ~ exists Rtot Kd v Kx L0 : R,
      valid Rtot Kd v Kx L0 /\
      0 < diffFunAnon Rtot Kd (np_int v) Kx L0 0
          * diffFunAnon Rtot Kd (np_int v) Kx L0 Rtot /\
      outcome (StoneMod Rtot Kd v Kx L0) = Raise RuntimeError.
Proof.
  intros (Rtot & Kd & v & Kx & L0 & H & Hs & _).
  exact (valid_sign _ _ _ _ _ H Hs).
Qed.

(** C8, amended: on every input of the data-model domain [f(0) = Rtot > 0]
    and [f(Rtot) <= 0], so the two values never share a sign and StoneMod
    does not raise the no-solution error; that error is raised on inputs
    outside the domain, such as [(Rtot, Kd, v, Kx, L0) = (1, 1, 1, 0, -1)]. *)
Theorem StoneMod_valid_never_no_solution :
  (forall Rtot Kd v Kx L0 : R,
      valid Rtot Kd v Kx L0 ->
      0 < diffFunAnon Rtot Kd (np_int v) Kx L0 0 /\
      diffFunAnon Rtot Kd (np_int v) Kx L0 Rtot <= 0 /\
      outcome (StoneMod Rtot Kd v Kx L0) <> Raise RuntimeError) /\
  StoneMod 1 1 1 0 (-1) = ([], Raise RuntimeError).
Proof.
  split; [|exact StoneMod_negative_ligand].
  intros Rtot Kd v Kx L0 H.
  destruct (valid_bracket _ _ _ _ _ H) as [E Hle].
  split; [rewrite E; destruct H; lra|]. split; [exact Hle|].
  rewrite valid_solved by exact H. discriminate.
Qed.

(** ** Valency zero or negative *)

Lemma np_int_nonpos (v : R) : v <= 0 -> (np_int v <= 0)%Z.
Proof.
  intros Hv. unfold np_int. destruct (Rle_dec 0 v) as [H|H].
  - replace v with 0 by lra.
    rewrite <- (Int_part_spec 0 0); [lia | simpl; lra].
  - destruct (base_Int_part (- v)) as [_ Hgt].
    assert (Hlt : IZR (-1) < IZR (Int_part (- v))) by (simpl; lra).
    apply lt_IZR in Hlt. lia.
Qed.

(** C9, refuted: with valency 0 StoneMod calls the root-finder and returns
    a triple. *)
Lemma StoneMod_valency_0_returns :
  StoneMod 1 1 0 0 0 = ([CallBrentq 0 1], OK (0, 0, 0)) /\
  ~ fails_before_root_finding (StoneMod 1 1 0 0 0).
Proof.
  assert (E : StoneMod 1 1 0 0 0 = ([CallBrentq 0 1], OK (0, 0, 0))).
  { rewrite StoneMod_solved.
    - destruct (outputs_no_ligand 1 (np_int 0) 0 (Req_of 1 1 0 0 0))
        as (-> & -> & ->).
      reflexivity.
    - lra.
    - rewrite np_int_0. unfold diffFunAnon. simpl. lra. }
  split; [exact E|]. rewrite E. intros [_ H]. discriminate H.
Qed.

(** C9, amended: StoneMod does not validate the valency, it only truncates
    it.  With a valency that is zero or negative, whenever StoneMod returns,
    it has called the root-finder on [0, Rtot] and the triple is
    [(0, 0, 0)]; and with a valency that truncates to 0 and the other
    parameters in the domain it does return. *)
Theorem StoneMod_nonpositive_valency (Rtot Kd v Kx L0 : R) :
  v <= 0 ->
  (forall tr t, StoneMod Rtot Kd v Kx L0 = (tr, OK t) ->
                t = (0, 0, 0) /\ tr = [CallBrentq 0 Rtot]) /\
  (np_int v = 0%Z -> 0 < Rtot -> 0 < Kd -> 0 <= Kx -> 0 <= L0 ->
   StoneMod Rtot Kd v Kx L0 = ([CallBrentq 0 Rtot], OK (0, 0, 0))).
Proof.
  intros Hv.
  pose proof (outputs_no_valency Kd (np_int v) Kx L0
                (Req_of Rtot Kd v Kx L0) (np_int_nonpos v Hv)) as (El & Eb & Em).
  split.
  - intros tr t E. apply StoneMod_OK_inv in E.
    destruct E as (_ & _ & -> & ->). rewrite El, Eb, Em. split; reflexivity.
  - intros E0 HR HK HX HL. rewrite StoneMod_solved.
    + rewrite El, Eb, Em. reflexivity.
    + lra.
    + rewrite E0. unfold diffFunAnon. simpl (IZR 0). lra.
Qed.

(** ** Monotonicity in the ligand concentration *)

(** The consumed receptor [x * (1 + c (1 + Kx x)^p)] grows strictly with
    [x >= 0] and weakly with the coefficient [c >= 0]. *)
Lemma massBalance_decreasing (Rtot c c' Kx : R) (p : nat) (x y : R) :
  0 <= c <= c' -> 0 <= Kx -> 0 <= x < y ->
  massBalance Rtot c' Kx p y < massBalance Rtot c Kx p x.
Proof.
  intros Hc HX Hxy. unfold massBalance.
  assert (Hp : 0 <= (1 + Kx * x) ^ p) by (apply pow_le; nra).
  assert (Hpp : (1 + Kx * x) ^ p <= (1 + Kx * y) ^ p)
    by (apply pow_incr; nra).
  assert (H1 : c * (1 + Kx * x) ^ p <= c' * (1 + Kx * y) ^ p)
    by (apply Rmult_le_compat; lra).
  assert (H0 : 0 <= c * (1 + Kx * x) ^ p) by (apply Rmult_le_pos; lra).
  assert (x * (1 + c * (1 + Kx * x) ^ p) < y * (1 + c * (1 + Kx * x) ^ p))
    by (apply Rmult_lt_compat_r; lra).
  assert (y * (1 + c * (1 + Kx * x) ^ p) <= y * (1 + c' * (1 + Kx * y) ^ p))
    by (apply Rmult_le_compat_l; lra).
  lra.
Qed.

(** The root of the mass balance in [0, Rtot] is unique on valid inputs. *)
Lemma valid_root_unique (Rtot Kd v Kx L0 x : R) :
  valid Rtot Kd v Kx L0 -> 0 <= x ->
  diffFunAnon Rtot Kd (np_int v) Kx L0 x = 0 ->
  Req_of Rtot Kd v Kx L0 = x.
Proof.
  intros H Hx Hz. destruct (valid_np_int _ _ _ _ _ H) as [Hv _].
  destruct (valid_Req _ _ _ _ _ H) as [[Hr _] Hrz].
  pose proof (valid_coeff _ _ _ _ _ H) as Hc.
  destruct H as (_ & _ & _ & HX & _).
  rewrite diffFunAnon_poly in Hz, Hrz by exact Hv.
  set (r := Req_of Rtot Kd v Kx L0) in *.
  destruct (Rtotal_order r x) as [Hlt|[Heq|Hgt]]; [|exact Heq|].
  - pose proof (massBalance_decreasing Rtot _ _ Kx
                  (Z.to_nat (np_int v - 1)) r x (conj Hc (Rle_refl _)) HX
                  (conj Hr Hlt)).
    lra.
  - pose proof (massBalance_decreasing Rtot _ _ Kx
                  (Z.to_nat (np_int v - 1)) x r (conj Hc (Rle_refl _)) HX
                  (conj Hx Hgt)).
    lra.
Qed.

Lemma valid_more_ligand (Rtot Kd v Kx L0 L0' : R) :
  valid Rtot Kd v Kx L0 -> L0 <= L0' -> valid Rtot Kd v Kx L0'.
Proof. unfold valid. intros (? & ? & ? & ? & ?) ?. repeat split; auto; lra. Qed.

(** More ligand leaves less free receptor: the roots of the two mass
    balances are ordered. *)
Lemma root_antitone (Rtot Kd v Kx L0 L0' x x' : R) :
  valid Rtot Kd v Kx L0 -> L0 <= L0' -> 0 <= x -> 0 <= x' ->
  diffFunAnon Rtot Kd (np_int v) Kx L0 x = 0 ->
  diffFunAnon Rtot Kd (np_int v) Kx L0' x' = 0 ->
  x' <= x.
Proof.
  intros H HL Hr Hr' Hz Hz'.
  destruct (valid_np_int _ _ _ _ _ H) as [Hv _].
  pose proof (valid_coeff _ _ _ _ _ H) as Hc.
  rewrite diffFunAnon_poly in Hz, Hz' by exact Hv.
  destruct H as (_ & HK & _ & HX & HL0).
  apply Rnot_lt_le. intros Hlt.
  assert (Hcc : IZR (np_int v) * L0 * (1 / Kd)
                <= IZR (np_int v) * L0' * (1 / Kd)).
  { apply Rmult_le_compat_r; [left; apply Rdiv_lt_0_compat; lra|].
    apply Rmult_le_compat_l; [apply IZR_le; lia | exact HL]. }
  pose proof (massBalance_decreasing Rtot _ _ Kx (Z.to_nat (np_int v - 1))
                _ _ (conj Hc Hcc) HX (conj Hr Hlt)).
  lra.
Qed.

(** Cross inequality of two geometric sums: for [1 <= t' <= t],
    [t'^m (1 + t + ... + t^m) <= t^m (1 + t' + ... + t'^m)]. *)
Lemma geom_cross (t t' : R) (m : nat) :
  1 <= t' <= t ->
  t' ^ m * sumn (fun k => t ^ k) (S m) <= t ^ m * sumn (fun k => t' ^ k) (S m).
Proof.
  intros Ht. rewrite <- !sumn_scal. apply sumn_le. intros k Hk.
  replace (t' ^ m) with (t' ^ k * t' ^ (m - k))
    by (rewrite <- pow_add; f_equal; lia).
  replace (t ^ m) with (t ^ k * t ^ (m - k))
    by (rewrite <- pow_add; f_equal; lia).
  assert (0 <= t ^ k) by (apply pow_le; lra).
  assert (0 <= t' ^ k) by (apply pow_le; lra).
  assert (0 <= t' ^ (m - k)) by (apply pow_le; lra).
  assert (t' ^ (m - k) <= t ^ (m - k)) by (apply pow_incr; lra).
  assert (0 <= t ^ k * t' ^ k) by (apply Rmult_le_pos; lra).
  replace (t' ^ k * t' ^ (m - k) * t ^ k) with (t ^ k * t' ^ k * t' ^ (m - k))
    by ring.
  replace (t ^ k * t ^ (m - k) * t' ^ k) with (t ^ k * t' ^ k * t ^ (m - k))
    by ring.
  apply Rmult_le_compat_l; assumption.
Qed.

Lemma cross_bound (ax ax' N T T' S S' : R) :
  0 <= ax -> 0 < N -> 0 < T' -> 0 <= S' ->
  ax * (N * T) <= ax' * (N * T') -> T' * S <= T * S' ->
  ax * S <= ax' * S'.
Proof.
  intros Hax HN HT' HS' Hb Hc.
  apply Rmult_le_reg_r with (N * T'); [apply Rmult_lt_0_compat; lra|].
  assert (H1 : ax * N * (T' * S) <= ax * N * (T * S')).
  { apply Rmult_le_compat_l; [apply Rmult_le_pos; lra | exact Hc]. }
  assert (H2 : ax * (N * T) * S' <= ax' * (N * T') * S').
  { apply Rmult_le_compat_r; assumption. }
  replace (ax * S * (N * T')) with (ax * N * (T' * S)) by ring.
  replace (ax' * S' * (N * T')) with (ax' * (N * T') * S') by ring.
  replace (ax * N * (T * S')) with (ax * (N * T) * S') in H1 by ring.
  lra.
Qed.

(** At a root of the mass balance the bound receptor is [Rtot - x]. *)
Lemma Rbnd_of_root (Rtot Kd : R) (v : Z) (Kx L0 x : R) :
  (1 <= v)%Z -> diffFunAnon Rtot Kd v Kx L0 x = 0 ->
  Rbnd_of Kd v Kx L0 x = Rtot - x.
Proof.
  intros Hv Hz. rewrite (Rbnd_of_balance Rtot) by exact Hv. lra.
Qed.

Lemma Lbound_monotone_at_roots (Rtot Kd v Kx L0 L0' x x' : R) :
  valid Rtot Kd v Kx L0 -> L0 <= L0' -> 0 <= x -> 0 <= x' ->
  diffFunAnon Rtot Kd (np_int v) Kx L0 x = 0 ->
  diffFunAnon Rtot Kd (np_int v) Kx L0' x' = 0 ->
  Lbound_of Kd (np_int v) Kx L0 x <= Lbound_of Kd (np_int v) Kx L0' x'.
Proof.
  intros H HL Hr Hr' Hz Hz'.
  destruct (valid_np_int _ _ _ _ _ H) as [Hv _].
  pose proof (root_antitone _ _ _ _ _ _ _ _ H HL Hr Hr' Hz Hz') as Hanti.
  pose proof (Rbnd_of_root _ _ _ _ _ _ Hv Hz) as Eb.
  pose proof (Rbnd_of_root _ _ _ _ _ _ Hv Hz') as Eb'.
  rewrite Rbnd_of_closed in Eb, Eb' by exact Hv.
  rewrite !Lbound_of_closed.
  destruct H as (_ & HK & _ & HX & HL0).
  set (p := Z.to_nat (np_int v - 1)) in *.
  replace (Z.to_nat (np_int v)) with (S p) by (unfold p; lia).
  assert (HiK : 0 < 1 / Kd) by (apply Rdiv_lt_0_compat; lra).
  assert (HN : 0 < IZR (np_int v)) by (apply IZR_lt; lia).
  assert (Hxx : Kx * x' <= Kx * x) by (apply Rmult_le_compat_l; lra).
  assert (Hx0 : 0 <= Kx * x') by (apply Rmult_le_pos; lra).
  apply (cross_bound _ _ (IZR (np_int v)) ((1 + Kx * x) ^ p)
                     ((1 + Kx * x') ^ p)).
  - apply Rmult_le_pos; [apply Rmult_le_pos|]; lra.
  - exact HN.
  - apply pow_lt. lra.
  - apply sumn_nonneg. intros k _. apply pow_le. lra.
  - replace (L0 * (1 / Kd) * x * (IZR (np_int v) * (1 + Kx * x) ^ p))
      with (x * (IZR (np_int v) * L0 * (1 / Kd) * (1 + Kx * x) ^ p)) by ring.
    replace (L0' * (1 / Kd) * x' * (IZR (np_int v) * (1 + Kx * x') ^ p))
      with (x' * (IZR (np_int v) * L0' * (1 / Kd) * (1 + Kx * x') ^ p))
      by ring.
    lra.
  - apply geom_cross. lra.
Qed.

(** Two runs with [Rtot = 3], [Kd = 1], [v = 2], [Kx = 1]: the roots of the
    mass balance are [Req = 1] at [L0 = 1/2] and [Req = 1/2] at [L0 = 5/3]. *)
Lemma valid_3_1_2_1 (L0 : R) : 0 <= L0 -> valid 3 1 2 1 L0.
Proof.
  intros H. unfold valid. repeat split; try lra.
  exists 2%Z. split; [lia | reflexivity].
Qed.

Lemma valid_1_1_1_0 (L0 : R) : 0 <= L0 -> valid 1 1 1 0 L0.
Proof.
  intros H. unfold valid. repeat split; try lra.
  exists 1%Z. split; [lia | reflexivity].
Qed.

Lemma np_int_2 : np_int 2 = 2%Z.
Proof. exact (np_int_IZR 2). Qed.

Lemma StoneMod_example_low :
  StoneMod 3 1 2 1 (1 / 2) = ([CallBrentq 0 3], OK (3 / 2, 2, 1)).
Proof.
  assert (V : valid 3 1 2 1 (1 / 2)) by (apply valid_3_1_2_1; lra).
  assert (E : Req_of 3 1 2 1 (1 / 2) = 1).
  { apply valid_root_unique; [exact V | lra |].
    rewrite np_int_2. unfold diffFunAnon. simpl. lra. }
  rewrite valid_solved by exact V. rewrite E, np_int_2.
  rewrite Lbound_of_sumn, Rbnd_of_sumn, Rmulti_of_sumn.
  change (Z.to_nat 2) with 2%nat. simpl (2 - 1)%nat.
  rewrite !sumn_S, !sumn_0. unfold term. simpl.
  now_triple (3 / 2) 2 1.
Qed.

Lemma StoneMod_example_high :
  StoneMod 3 1 2 1 (5 / 3) = ([CallBrentq 0 3], OK (25 / 12, 5 / 2, 5 / 6)).
Proof.
  assert (V : valid 3 1 2 1 (5 / 3)) by (apply valid_3_1_2_1; lra).
  assert (E : Req_of 3 1 2 1 (5 / 3) = 1 / 2).
  { apply valid_root_unique; [exact V | lra |].
    rewrite np_int_2. unfold diffFunAnon. simpl. lra. }
  rewrite valid_solved by exact V. rewrite E, np_int_2.
  rewrite Lbound_of_sumn, Rbnd_of_sumn, Rmulti_of_sumn.
  change (Z.to_nat 2) with 2%nat. simpl (2 - 1)%nat.
  rewrite !sumn_S, !sumn_0. unfold term. simpl.
  now_triple (25 / 12) (5 / 2) (5 / 6).
Qed.

(** C4, amended: for fixed valid [(Rtot, Kd, v, Kx)] and ligand
    concentrations [0 <= L0 <= L0'] on which StoneMod returns, if the two
    values found by the root-finder are roots of their mass balances, then
    [Lbound] and [Rbnd] at [L0'] are greater than or equal to their values
    at [L0]. *)
Theorem StoneMod_monotone_in_ligand
    (Rtot Kd v Kx L0 L0' : R) tr tr' Lbound Rbnd Rmulti Lbound' Rbnd' Rmulti' :
  valid Rtot Kd v Kx L0 -> L0 <= L0' ->
  StoneMod Rtot Kd v Kx L0 = (tr, OK (Lbound, Rbnd, Rmulti)) ->
  StoneMod Rtot Kd v Kx L0' = (tr', OK (Lbound', Rbnd', Rmulti')) ->
  diffFunAnon Rtot Kd (np_int v) Kx L0 (Req_of Rtot Kd v Kx L0) = 0 ->
  diffFunAnon Rtot Kd (np_int v) Kx L0' (Req_of Rtot Kd v Kx L0') = 0 ->
  Lbound <= Lbound' /\ Rbnd <= Rbnd'.
Proof.
  intros H HL E E' Hz Hz'.
  pose proof (valid_more_ligand _ _ _ _ _ _ H HL) as H'.
  destruct (valid_np_int _ _ _ _ _ H) as [Hv _].
  destruct (valid_Req _ _ _ _ _ H) as [[Hr _] _].
  destruct (valid_Req _ _ _ _ _ H') as [[Hr' _] _].
  rewrite valid_solved in E by exact H.
  rewrite valid_solved in E' by exact H'.
  inversion E; inversion E'; subst; clear E E'. split.
  - now apply (Lbound_monotone_at_roots Rtot).
  - rewrite (Rbnd_of_root Rtot _ _ _ _ _ Hv Hz).
    rewrite (Rbnd_of_root Rtot _ _ _ _ _ Hv Hz').
    pose proof (root_antitone _ _ _ _ _ _ _ _ H HL Hr Hr' Hz Hz'). lra.
Qed.

(** ** The theorems at concrete inputs *)

Lemma StoneMod_series_witness :
  StoneMod 3 1 2 1 (1 / 2) = ([CallBrentq 0 3], OK (3 / 2, 2, 1)) /\
  (3 / 2, 2, 1)
  = (Lbound_spec 1 (Z.to_nat (np_int 2)) 1 (1 / 2) (Req_of 3 1 2 1 (1 / 2)),
     Rbnd_spec 1 (Z.to_nat (np_int 2)) 1 (1 / 2) (Req_of 3 1 2 1 (1 / 2)),
     Rmulti_spec 1 (Z.to_nat (np_int 2)) 1 (1 / 2) (Req_of 3 1 2 1 (1 / 2))).
Proof.
  split; [exact StoneMod_example_low|].
  exact (proj2 (proj2 (StoneMod_series 3 1 2 1 (1 / 2) _ _
                         StoneMod_example_low))).
Defined.


Lemma StoneMod_conservation_witness :
  0 <= Req_of 3 1 2 1 (1 / 2) <= 3 /\ 1 <= 2 /\
  2 = 3 - Req_of 3 1 2 1 (1 / 2)
      - diffFunAnon 3 1 (np_int 2) 1 (1 / 2) (Req_of 3 1 2 1 (1 / 2)) /\
  (- Req_of 3 1 2 1 (1 / 2)
   <= diffFunAnon 3 1 (np_int 2) 1 (1 / 2) (Req_of 3 1 2 1 (1 / 2)) ->
   2 <= 3).
Proof.
  apply (StoneMod_conservation 3 1 2 1 (1 / 2) [CallBrentq 0 3] (3 / 2) 2 1).
  - apply valid_3_1_2_1. lra.
  - exact StoneMod_example_low.
Defined.

Lemma StoneMod_monotone_in_ligand_witness :
  valid 3 1 2 1 (1 / 2) /\ 1 / 2 <= 5 / 3 /\
  (3 / 2 <= 25 / 12 /\ 2 <= 5 / 2).
Proof.
  assert (V : valid 3 1 2 1 (1 / 2)) by (apply valid_3_1_2_1; lra).
  assert (V' : valid 3 1 2 1 (5 / 3)) by (apply valid_3_1_2_1; lra).
  split; [exact V|]. split; [lra|].
  apply (StoneMod_monotone_in_ligand 3 1 2 1 (1 / 2) (5 / 3)
           [CallBrentq 0 3] [CallBrentq 0 3] (3 / 2) 2 1 (25 / 12) (5 / 2)
           (5 / 6)).
  - exact V.
  - lra.
  - exact StoneMod_example_low.
  - exact StoneMod_example_high.
  - exact (proj2 (valid_Req _ _ _ _ _ V)).
  - exact (proj2 (valid_Req _ _ _ _ _ V')).
Defined.

Lemma StoneMod_root_valency_1_witness :
  valid 1 1 1 0 1 /\
  0 < 1 * 1 / (1 + 1) <= 1 /\
  diffFunAnon 1 1 (np_int 1) 0 1 (1 * 1 / (1 + 1)) = 0.
Proof.
  assert (V : valid 1 1 1 0 1) by (apply valid_1_1_1_0; lra).
  destruct (StoneMod_root_valency_1 1 1 0 1 V) as (_ & Hr & Hz & _).
  split; [exact V|]. split; [exact Hr | exact Hz].
Defined.

Lemma StoneMod_valency_1_witness :
  valid 1 1 1 0 1 /\
  Rmulti_of 1 (np_int 1) 0 1 (Req_of 1 1 1 0 1) = 0 /\
  Rbnd_of 1 (np_int 1) 0 1 (Req_of 1 1 1 0 1)
  = Lbound_of 1 (np_int 1) 0 1 (Req_of 1 1 1 0 1).
Proof.
  split; [apply valid_1_1_1_0; lra|].
  apply (StoneMod_valency_1 1 1 0 1 [CallBrentq 0 1]).
  - apply valid_1_1_1_0. lra.
  - apply valid_solved. apply valid_1_1_1_0. lra.
Defined.

Lemma builtin_in_range_1_1_0 : builtin_in_range 1 1 0.
Proof.
  split; [|rewrite Rmult_0_l; apply pow_le; lra].
  rewrite <- Rinv_1. apply Rinv_le_contravar; [lra|].
  apply pow_R1_Rle. lra.
Qed.

Lemma StoneMod_no_ligand_witness :
  valid 1 1 1 0 0 /\ builtin_in_range 1 1 0 /\
  (Lbound_of 1 (np_int 1) 0 0 (Req_of 1 1 1 0 0),
   Rbnd_of 1 (np_int 1) 0 0 (Req_of 1 1 1 0 0),
   Rmulti_of 1 (np_int 1) 0 0 (Req_of 1 1 1 0 0)) = (0, 0, 0).
Proof.
  assert (V : valid 1 1 1 0 0) by (apply valid_1_1_1_0; lra).
  split; [exact V|]. split; [exact builtin_in_range_1_1_0|].
  exact (proj1 (StoneMod_no_ligand 1 1 1 0 _ _ V builtin_in_range_1_1_0
                  (valid_solved _ _ _ _ _ V))).
Defined.

Lemma StoneMod_valid_never_no_solution_witness :
  valid 1 1 1 0 1 /\
  outcome (StoneMod 1 1 1 0 1) <> Raise RuntimeError.
Proof.
  assert (V : valid 1 1 1 0 1) by (apply valid_1_1_1_0; lra).
  split; [exact V|].
  exact (proj2 (proj2 (proj1 StoneMod_valid_never_no_solution 1 1 1 0 1 V))).
Defined.

Lemma StoneMod_nonpositive_valency_witness :
  0 <= 0 /\ np_int 0 = 0%Z /\
  StoneMod 1 1 0 0 0 = ([CallBrentq 0 1], OK (0, 0, 0)).
Proof.
  split; [lra|]. split; [exact np_int_0|].
  refine (proj2 (StoneMod_nonpositive_valency 1 1 0 0 0 _) np_int_0 _ _ _ _);
    lra.
Defined.

(** ** Further properties of StoneMod *)

(** The solution check of StoneMod is the sign test of [brentq]: whatever
    the input, the [ValueError] of the root-finder is never raised. *)
Theorem StoneMod_never_ValueError (Rtot Kd v Kx L0 : R) :
  outcome (StoneMod Rtot Kd v Kx L0) <> Raise ValueError.
Proof.
  destruct (Req_dec_T Kd 0) as [HK|HK].
  { rewrite StoneMod_zero_division by exact HK. discriminate. }
  destruct (Rlt_dec 0 (diffFunAnon Rtot Kd (np_int v) Kx L0 0
                       * diffFunAnon Rtot Kd (np_int v) Kx L0 Rtot))
    as [Hs|Hs].
  - rewrite StoneMod_no_solution by assumption. discriminate.
  - rewrite StoneMod_solved by assumption. discriminate.
Qed.

(** [np.int_] truncates toward zero. *)
Lemma np_int_trunc (v : R) (n : Z) :
  (0 <= n)%Z /\ IZR n <= v < IZR n + 1 \/
  (n <= 0)%Z /\ IZR n - 1 < v <= IZR n ->
  np_int v = n.
Proof.
  intros [[Hn Hv] | [Hn Hv]]; unfold np_int.
  - apply IZR_le in Hn. destruct (Rle_dec 0 v) as [H|H]; [|lra].
    symmetry. apply Int_part_spec. lra.
  - apply IZR_le in Hn. destruct (Rle_dec 0 v) as [H|H].
    + assert (E : IZR n = IZR 0) by lra. apply eq_IZR in E. subst n.
      symmetry. apply Int_part_spec. lra.
    + rewrite <- (Int_part_spec (- v) (- n)); [lia|].
      rewrite opp_IZR. lra.
Qed.

(** A fractional valency is silently truncated toward zero: StoneMod at [v]
    is StoneMod at the integer [n] with [n <= v < n + 1] (for [n >= 0]) or
    [n - 1 < v <= n] (for [n <= 0]). *)
Theorem StoneMod_truncates_valency (Rtot Kd v Kx L0 : R) (n : Z) :
  (0 <= n)%Z /\ IZR n <= v < IZR n + 1 \/
  (n <= 0)%Z /\ IZR n - 1 < v <= IZR n ->
  StoneMod Rtot Kd v Kx L0 = StoneMod Rtot Kd (IZR n) Kx L0.
Proof.
  intros H. unfold StoneMod. rewrite np_int_IZR, (np_int_trunc v n H).
  reflexivity.
Qed.

Lemma StoneMod_truncates_valency_witness :
  StoneMod 3 1 (5 / 2) 1 (1 / 2) = StoneMod 3 1 2 1 (1 / 2).
Proof.
  apply (StoneMod_truncates_valency 3 1 (5 / 2) 1 (1 / 2) 2).
  left. split; [lia | simpl; lra].
Defined.

Lemma term_nonneg (Kd : R) (n : nat) (Kx L0 Req : R) (k : nat) :
  0 < Kd -> 0 <= Kx -> 0 <= L0 -> 0 <= Req ->
  0 <= term Kd n Kx L0 Req k.
Proof.
  intros HK HX HL Hr. unfold term.
  assert (0 < 1 / Kd) by (apply Rdiv_lt_0_compat; lra).
  assert (0 <= (Kx * Req) ^ k)
    by (apply pow_le; apply Rmult_le_pos; assumption).
  repeat apply Rmult_le_pos; try lra. apply pos_INR.
Qed.

(** On a valid input every ligand that is bound holds between one and [v]
    receptors: the outputs are non-negative and
    [Lbound <= Rbnd <= v * Lbound]. *)
Theorem StoneMod_receptors_per_ligand
    (Rtot Kd v Kx L0 : R) tr Lbound Rbnd Rmulti :
  valid Rtot Kd v Kx L0 ->
  StoneMod Rtot Kd v Kx L0 = (tr, OK (Lbound, Rbnd, Rmulti)) ->
  0 <= Rmulti /\ 0 <= Lbound /\ Lbound <= Rbnd /\ Rbnd <= v * Lbound.
Proof.
  intros H E. rewrite valid_solved in E by exact H.
  inversion E; subst; clear E.
  destruct (valid_np_int _ _ _ _ _ H) as [Hv Ev].
  destruct (valid_Req _ _ _ _ _ H) as [[Hr _] _].
  destruct H as (_ & HK & _ & HX & HL).
  rewrite Lbound_of_sumn, Rbnd_of_sumn, Rmulti_of_sumn.
  set (x := Req_of Rtot Kd v Kx L0) in *.
  set (n := Z.to_nat (np_int v)).
  assert (En : v = INR n).
  { rewrite Ev at 1. unfold n. rewrite INR_IZR_INZ, Z2Nat.id by lia.
    reflexivity. }
  assert (T : forall k, 0 <= term Kd n Kx L0 x k)
    by (intros k; now apply term_nonneg).
  split; [|split; [|split]].
  - apply sumn_nonneg. intros k _. apply Rmult_le_pos; [apply T | apply pos_INR].
  - apply sumn_nonneg. intros k _. apply T.
  - apply sumn_le. intros k _. specialize (T k).
    assert (1 <= INR (S k)) by (rewrite S_INR; pose proof (pos_INR k); lra).
    rewrite <- (Rmult_1_r (term Kd n Kx L0 x k)) at 1.
    apply Rmult_le_compat_l; assumption.
  - rewrite En at 1. rewrite <- sumn_scal. apply sumn_le. intros k Hk.
    specialize (T k). rewrite Rmult_comm.
    apply Rmult_le_compat_r; [exact T|]. apply le_INR. lia.
Qed.

Lemma StoneMod_receptors_per_ligand_witness :
  0 <= 1 /\ 0 <= 3 / 2 /\ 3 / 2 <= 2 /\ 2 <= 2 * (3 / 2).
Proof.
  apply (StoneMod_receptors_per_ligand 3 1 2 1 (1 / 2) [CallBrentq 0 3]
           (3 / 2) 2 1).
  - apply valid_3_1_2_1. lra.
  - exact StoneMod_example_low.
Defined.

(** Whenever StoneMod returns with a valency of at least 1, [Rbnd] exceeds
    [Rmulti] by the receptor held by singly bound ligand,
    [v * L0 * (1/Kd) * Req]. *)
Theorem StoneMod_singly_bound (Rtot Kd v Kx L0 : R) tr Lbound Rbnd Rmulti :
  (1 <= np_int v)%Z ->
  StoneMod Rtot Kd v Kx L0 = (tr, OK (Lbound, Rbnd, Rmulti)) ->
  Rbnd - Rmulti
  = IZR (np_int v) * L0 * (1 / Kd) * Req_of Rtot Kd v Kx L0.
Proof.
  intros Hv E. apply StoneMod_OK_inv in E. destruct E as (_ & _ & _ & E).
  inversion E; subst; clear E.
  rewrite (Rbnd_of_split Kd (np_int v)) by exact Hv. ring.
Qed.

Lemma StoneMod_singly_bound_witness :
  2 - 1 = IZR (np_int 2) * (1 / 2) * (1 / 1) * Req_of 3 1 2 1 (1 / 2).
Proof.
  apply (StoneMod_singly_bound 3 1 2 1 (1 / 2) [CallBrentq 0 3] (3 / 2) 2 1).
  - rewrite np_int_2. lia.
  - exact StoneMod_example_low.
Defined.

Lemma sumn_choose_succ_pow (n : nat) (y : R) :
  y * sumn (fun k => INR (choose n (S k)) * y ^ k) n = (1 + y) ^ n - 1.
Proof.
  rewrite <- sumn_choose_pow, sumn_shift, choose_0_r, <- sumn_scal.
  rewrite (sumn_ext (fun k => y * (INR (choose n (S k)) * y ^ k))
                    (fun k => INR (choose n (S k)) * y ^ S k))
    by (intros; simpl; ring).
  simpl. ring.
Qed.

(** The series in the closed forms of the paper: whenever StoneMod returns,
    [Kx * Lbound = L0 * (1/Kd) * ((1 + Kx*Req)^v - 1)], and with a valency
    of at least 1, [Rbnd = v * L0 * (1/Kd) * Req * (1 + Kx*Req)^(v-1)]. *)
Theorem StoneMod_closed_forms (Rtot Kd v Kx L0 : R) tr Lbound Rbnd Rmulti :
  StoneMod Rtot Kd v Kx L0 = (tr, OK (Lbound, Rbnd, Rmulti)) ->
  let Req := Req_of Rtot Kd v Kx L0 in
  Kx * Lbound
  = L0 * (1 / Kd) * ((1 + Kx * Req) ^ Z.to_nat (np_int v) - 1) /\
  ((1 <= np_int v)%Z ->
   Rbnd = IZR (np_int v) * L0 * (1 / Kd) * Req
          * (1 + Kx * Req) ^ Z.to_nat (np_int v - 1)).
Proof.
  intros E Req. apply StoneMod_OK_inv in E. destruct E as (_ & _ & _ & E).
  inversion E; subst; clear E. fold Req. split.
  - rewrite <- sumn_choose_succ_pow, Lbound_of_sumn.
    rewrite (sumn_ext (term Kd (Z.to_nat (np_int v)) Kx L0 Req)
               (fun k => L0 * (1 / Kd) * Req
                         * (INR (choose (Z.to_nat (np_int v)) (S k))
                            * (Kx * Req) ^ k)))
      by (intros; unfold term; ring).
    rewrite sumn_scal. ring.
  - intros Hv. rewrite Rbnd_of_closed by exact Hv. ring.
Qed.

Lemma StoneMod_closed_forms_witness :
  1 * (3 / 2)
  = 1 / 2 * (1 / 1)
    * ((1 + 1 * Req_of 3 1 2 1 (1 / 2)) ^ Z.to_nat (np_int 2) - 1).
Proof.
  exact (proj1 (StoneMod_closed_forms 3 1 2 1 (1 / 2) [CallBrentq 0 3]
                  (3 / 2) 2 1 StoneMod_example_low)).
Defined.

(** Without cross-linking ([Kx = 0]) binding is monovalent: on a valid
    input on which StoneMod returns, [Rmulti = 0] and [Rbnd = Lbound]. *)
Theorem StoneMod_no_crosslinking (Rtot Kd v L0 : R) tr Lbound Rbnd Rmulti :
  valid Rtot Kd v 0 L0 ->
  StoneMod Rtot Kd v 0 L0 = (tr, OK (Lbound, Rbnd, Rmulti)) ->
  Rmulti = 0 /\ Rbnd = Lbound.
Proof.
  intros H E. rewrite valid_solved in E by exact H.
  inversion E; subst; clear E.
  destruct (valid_np_int _ _ _ _ _ H) as [Hv Ev].
  set (x := Req_of Rtot Kd v 0 L0) in *.
  assert (Em : Rmulti_of Kd (np_int v) 0 L0 x = 0).
  { rewrite Rmulti_of_sumn. apply sumn_zero. intros k _. unfold term.
    simpl. ring. }
  split; [exact Em|].
  rewrite (Rbnd_of_split Kd (np_int v)), Em, Lbound_of_sumn by exact Hv.
  destruct (Z.to_nat (np_int v)) as [|m] eqn:E; [lia|].
  rewrite sumn_shift, sumn_zero by (intros k _; unfold term; simpl; ring).
  unfold term. rewrite choose_1_r, <- E, INR_IZR_INZ, Z2Nat.id by lia.
  simpl. ring.
Qed.

Lemma StoneMod_no_crosslinking_witness :
  Rmulti_of 1 (np_int 1) 0 1 (Req_of 1 1 1 0 1) = 0 /\
  Rbnd_of 1 (np_int 1) 0 1 (Req_of 1 1 1 0 1)
  = Lbound_of 1 (np_int 1) 0 1 (Req_of 1 1 1 0 1).
Proof.
  apply (StoneMod_no_crosslinking 1 1 1 1 [CallBrentq 0 1]).
  - apply valid_1_1_1_0. lra.
  - apply valid_solved. apply valid_1_1_1_0. lra.
Defined.

(** ** Ligand concentration and affinity enter through [L0 / Kd] *)







(** ** The columns of the data table *)

Lemma split_columns_rows (rows : list (list R)) :
  Forall (fun r => length r = 3%nat) rows ->
  hsplit (Arr2 3 rows) 3
  = OK [Arr2 1 (map (fun r => [nth 0 r 0]) rows);
        Arr2 1 (map (fun r => [nth 1 r 0]) rows);
        Arr2 1 (map (fun r => [nth 2 r 0]) rows)].
Proof.
  intros H. unfold hsplit. simpl. rewrite !map_map.
  do 2 f_equal; [|f_equal; [|f_equal]]; f_equal;
    apply map_ext_in; intros r Hr;
    rewrite Forall_forall in H; specialize (H r Hr);
    destruct r as [|a [|b [|c [|d r]]]]; try discriminate; reflexivity.
Qed.

Lemma squeeze_column (F : list R -> R) (rows : list (list R)) :
  length rows <> 1%nat ->
  squeeze (Arr2 1 (map (fun r => [F r]) rows)) = Arr1 (map F rows).
Proof.
  intros H. unfold squeeze. rewrite length_map, map_map.
  destruct rows as [|r [|r' rows]]; simpl; try reflexivity.
  now contradiction H.
Qed.

(** A table of three columns and any number of rows other than one is
    split into its three columns, one-dimensional arrays of the same
    length whose entries at each index are the entries of that row; a
    table of a single row gives three zero-dimensional arrays instead. *)
Theorem split_columns_table (rows : list (list R)) :
  wf_ndarray (Arr2 3 rows) ->
  let xs := map (fun r => nth 0 r 0) rows in
  let ys := map (fun r => nth 1 r 0) rows in
  let vs := map (fun r => nth 2 r 0) rows in
  zip3 xs ys vs = rows /\
  length xs = length rows /\ length ys = length rows /\
  length vs = length rows /\
  (length rows <> 1%nat ->
   split_columns (Arr2 3 rows) = OK (Arr1 xs, Arr1 ys, Arr1 vs)) /\
  (length rows = 1%nat ->
   split_columns (Arr2 3 rows)
   = OK (Arr0 (nth 0 xs 0), Arr0 (nth 0 ys 0), Arr0 (nth 0 vs 0))).
Proof.
  intros H xs ys vs. simpl in H.
  split; [|split; [|split; [|split; [|split]]]].
  - unfold xs, ys, vs. induction H as [|r rows Hr H IH]; [reflexivity|].
    simpl. rewrite IH.
    destruct r as [|a [|b [|c [|d r]]]]; try discriminate; reflexivity.
  - apply length_map.
  - apply length_map.
  - apply length_map.
  - intros Hn. unfold split_columns. rewrite split_columns_rows by exact H.
    now rewrite !squeeze_column by exact Hn.
  - intros Hn. unfold split_columns. rewrite split_columns_rows by exact H.
    destruct rows as [|r [|r' rows]]; try discriminate. reflexivity.
Qed.

Lemma split_columns_table_witness :
  split_columns (Arr2 3 [[1; 2; 3]; [4; 5; 6]])
  = OK (Arr1 [1; 4], Arr1 [2; 5], Arr1 [3; 6]).
Proof.
  apply (split_columns_table [[1; 2; 3]; [4; 5; 6]]).
  - repeat constructor.
  - simpl. lia.
Defined.

(** ** Runs of the binary64 program *)

Import PrimFloat.
#[local] Set Warnings "-inexact-float".

(** [np.int_] on floats: truncation toward zero, and an error beyond the
    64-bit integers. *)
Example b64_np_int_runs :
  B64.np_int 2.7 = B64.Ok 2%Z /\ B64.np_int (-2.7) = B64.Ok (-2)%Z /\
  B64.np_int 1e19 = B64.Err B64.OverflowError.
Proof. vm_compute. repeat split. Qed.

(** The two runs of the exact model, in binary64. *)
Example b64_example_runs :
  B64.StoneMod 3 1 2 1 0.5 = B64.Ok (1.5, 2, 1)%float /\
  B64.StoneMod 3 1 2 1 (5 / 3)
  = B64.Ok (2.0833333333333335, 2.5, 0.83333333333333337)%float.
Proof. vm_compute. split; reflexivity. Qed.

(** C3, refuted: on the valid input [(1, 1, 1, 0, 1.5e12)] the root is
    about 6.7e-13; [brentq] stops within its absolute tolerance and returns
    1e-12, and StoneMod returns [Rbnd = 1.5 > Rtot = 1]. *)
Lemma Rbnd_exceeds_Rtot :
  B64.valid 1 1 1 0 1.5e12 = true /\
  B64.Req 1 1 1 0 1.5e12 = B64.Ok 1e-12%float /\
  B64.StoneMod 1 1 1 0 1.5e12 = B64.Ok (1.5, 1.5, 0)%float /\
  (1.5 <=? 1)%float = false.
Proof. vm_compute. repeat split. Qed.

(** C4, refuted: raising [L0] lowers [Rmulti] from 1 to 5/6 at
    [(Rtot, Kd, v, Kx) = (3, 1, 2, 1)], in the exact model and in binary64;
    and in binary64 it lowers [Lbound] and [Rbnd] from 0.5 to 0 at
    [(1, 1, 1, 0)], where [brentq] returns 0 for the root near 1e-13. *)
Lemma outputs_not_monotone_in_ligand :
  (valid 3 1 2 1 (1 / 2) /\ valid 3 1 2 1 (5 / 3) /\ 1 / 2 <= 5 / 3 /\
   StoneMod 3 1 2 1 (1 / 2) = ([CallBrentq 0 3], OK (3 / 2, 2, 1)) /\
   StoneMod 3 1 2 1 (5 / 3) = ([CallBrentq 0 3], OK (25 / 12, 5 / 2, 5 / 6)) /\
   ~ 1 <= 5 / 6) /\
  (B64.StoneMod 3 1 2 1 0.5 = B64.Ok (1.5, 2, 1)%float /\
   B64.StoneMod 3 1 2 1 (5 / 3)
   = B64.Ok (2.0833333333333335, 2.5, 0.83333333333333337)%float /\
   (1 <=? 0.83333333333333337)%float = false) /\
  (B64.valid 1 1 1 0 1 = true /\ B64.valid 1 1 1 0 1e13 = true /\
   B64.StoneMod 1 1 1 0 1 = B64.Ok (0.5, 0.5, 0)%float /\
   B64.StoneMod 1 1 1 0 1e13 = B64.Ok (0, 0, 0)%float /\
   (0.5 <=? 0)%float = false).
Proof.
  split; [|split].
  - split; [apply valid_3_1_2_1; lra|].
    split; [apply valid_3_1_2_1; lra|].
    split; [lra|].
    split; [exact StoneMod_example_low|].
    split; [exact StoneMod_example_high | lra].
  - vm_compute. repeat split.
  - vm_compute. repeat split.
Qed.

(** C5, refuted: on the valid input [(1, 1, 1, 0, 1e13)] the closed form
    is about 1e-13 and the root-finding step returns 0: the relative error
    is 1, not 1e-9. *)
Lemma brentq_misses_closed_form :
  B64.valid 1 1 1 0 1e13 = true /\
  B64.Req 1 1 1 0 1e13 = B64.Ok 0%float /\
  (1 * 1 / (1 + 1e13) =? 9.9999999999989994e-14)%float = true /\
  (abs (0 - 1 * 1 / (1 + 1e13)) <=? 1e-9 * abs (1 * 1 / (1 + 1e13)))%float
  = false.
Proof. vm_compute. repeat split. Qed.

(** C7, refuted: on the valid input [(1e7, 1, 50, 1, 0)] the power
    [(1 + Kx*Rtot)**49] overflows in [diffFunAnon(Rtot)], before it is
    multiplied by [v*L0*(1/Kd) = 0], and StoneMod fails; and on
    [(1, 1e-320, 1, 0, 0)] the builtin quotient [1/Kd] is infinite and
    StoneMod returns NaN. *)
Lemma no_ligand_overflow :
  (B64.valid 1e7 1 50 1 0 = true /\
   B64.diffFunAnon 1e7 1 50 1 0 0 = B64.Ok 1e7%float /\
   B64.diffFunAnon 1e7 1 50 1 0 1e7 = B64.Err B64.FloatingPointError /\
   B64.StoneMod 1e7 1 50 1 0 = B64.Err B64.FloatingPointError) /\
  (B64.valid 1 1e-320 1 0 0 = true /\
   B64.StoneMod 1 1e-320 1 0 0 = B64.Ok (nan, nan, 0)%float).
Proof. vm_compute. repeat split. Qed.

(** The no-solution error in binary64: raised outside the domain. *)
Example b64_negative_ligand_run :
  B64.StoneMod 1 1 1 0 (-1) = B64.Err B64.RuntimeError.
Proof. vm_compute. reflexivity. Qed.

(** Valency zero or negative in binary64: [(0, 0, 0)] with valency 0, and
    also with valency -20 and [L0 > 0], where [1 + v*L0*(1/Kd)*(...)]
    rounds to 1 and [f(Rtot)] is 0. *)
Example b64_nonpositive_valency_runs :
  B64.StoneMod 1 1 0 0 0 = B64.Ok (0, 0, 0)%float /\
  B64.StoneMod 24000 1.7e-5 (-20) 3.15e-4 1e-4 = B64.Ok (0, 0, 0)%float.
Proof. vm_compute. split; reflexivity. Qed.

(** C10: the overflow of a NumPy power raises [FloatingPointError]
    ([(1e7, 1, 50, 1, 1)]), but the overflow of a builtin operation is
    silent: with [Kd = 1e-320] the quotient [1/Kd] is infinite and StoneMod
    returns NaN, and with [Kx = Rtot = 1e200] the product [Kx*x] is
    infinite, no NumPy operation sees finite operands overflow, and
    StoneMod returns infinities. *)
Theorem overflow_not_contained :
  B64.StoneMod 1e7 1 50 1 1 = B64.Err B64.FloatingPointError /\
  (B64.valid 1 1e-320 1 0 0 = true /\
   B64.StoneMod 1 1e-320 1 0 0 = B64.Ok (nan, nan, 0)%float) /\
  (B64.valid 1e200 1 2 1e200 1 = true /\
   B64.StoneMod 1e200 1 2 1e200 1 = B64.Ok (infinity, infinity, infinity)).
Proof. vm_compute. repeat split. Qed.
